(** * ZoomDesktop: the pan / zoom / pin engine of the image viewer

    A shallow embedding of the component [ZoomDesktop] (file
    ZoomDesktop.tsx) and the properties of its viewport engine.

    Numbers.  The source computes with IEEE doubles.  The development
    idealises them as exact rationals [Q]: sums, products, comparisons,
    [Math.min] and [Math.max] are the exact ones, and the literal [0.1] is
    the rational 1/10.  A quotient whose divisor is zero is outside the
    idealisation (JavaScript yields an infinity or NaN there, [Qdiv] yields
    0), so every statement that depends on a quotient says what makes its
    divisor nonzero.  Equality of computed numbers is [Qeq] ([==]); where
    the code stores the very same value in two places the statement uses
    Leibniz equality.

    State.  The component keeps five mutable refs and four React states.
    They are the fields of [state]; a handler is a function from [state] to
    [state].  A functional updater passed to a state setter is applied to
    the state it is queued on, in the order of the queue, so that one
    handler call is one state transformer. *)

From Stdlib Require Import ZArith QArith Qminmax Qabs Lqa Bool List Lia.
Import ListNotations.

Open Scope Q_scope.

(** ** JavaScript primitives *)

Module JS.

Definition Math_min (a b : Q) : Q := Qmin a b.
Definition Math_max (a b : Q) : Q := Qmax a b.

(** [a > b] on numbers. *)
Definition gt (a b : Q) : bool :=
  (Qnum b * QDen a <? Qnum a * QDen b)%Z.

End JS.

(** [function clamp(x, min, max)], line 7. *)
Definition clamp (x min max : Q) : Q :=
  JS.Math_max min (JS.Math_min x max).

(** ** Data *)

(** [{ width, height }] of [imageDataRef]. *)
Record Size := mkSize { width : Q; height : Q }.

(** [{ x, y }] of the [dragOffset] and [pin] states. *)
Record Point := mkPoint { px : Q; py : Q }.

(** What the handlers read of a mounted [div]. *)
Record HTMLDivElement := mkDiv { clientWidth : Q; clientHeight : Q }.

(** What [onPinPlace] reads of [getBoundingClientRect()]. *)
Record DOMRect := mkRect { box_x : Q; box_y : Q }.

(** What the handlers read of a [MouseEvent]. *)
Record MouseEvent := mkMouse {
  clientX : Q; clientY : Q; movementX : Q; movementY : Q }.

(** [containerDataRef.current]. *)
Record ContainerData := mkContainer {
  c_width : Q; c_height : Q; imageRef : option HTMLDivElement }.

(** [offsetDataRef.current]. *)
Record OffsetData := mkOffset {
  baseX : Q; baseY : Q; dragX : Q; dragY : Q }.

(** [zoomDataRef.current]. *)
Record ZoomData := mkZoom { z_min : Q; z_max : Q; z_current : Q }.

(** [dragDataRef.current]. *)
Record DragData := mkDrag { isDragging : bool }.

(** The refs and the React states of one mounted [ZoomDesktop]. *)
Record state := mkState {
  shouldDisplayModal : bool;       (* useState(false) *)
  imageData : Size;                (* imageDataRef *)
  containerData : ContainerData;   (* containerDataRef *)
  offsetData : OffsetData;         (* offsetDataRef *)
  zoomData : ZoomData;             (* zoomDataRef *)
  dragData : DragData;             (* dragDataRef *)
  dragOffset : Point;              (* useState({ x: 0, y: 0 }) *)
  zoomLevel : Q;                   (* useState(1) *)
  pin : Point                      (* useState({ x: 0, y: 0 }) *)
}.

(** The values the refs and states are created with, lines 13-68. *)
Definition init : state := {|
  shouldDisplayModal := false;
  imageData := {| width := 1; height := 1 |};
  containerData := {| c_width := 1; c_height := 1; imageRef := None |};
  offsetData := {| baseX := 0; baseY := 0; dragX := 0; dragY := 0 |};
  zoomData := {| z_min := 1; z_max := 3; z_current := 1 |};
  dragData := {| isDragging := false |};
  dragOffset := {| px := 0; py := 0 |};
  zoomLevel := 1;
  pin := {| px := 0; py := 0 |}
|}.

(** Assignments to one field of the state. *)
Section Setters.
Variable s : state.

Definition set_shouldDisplayModal (b : bool) : state :=
  mkState b (imageData s) (containerData s) (offsetData s) (zoomData s)
          (dragData s) (dragOffset s) (zoomLevel s) (pin s).
Definition set_imageData (i : Size) : state :=
  mkState (shouldDisplayModal s) i (containerData s) (offsetData s)
          (zoomData s) (dragData s) (dragOffset s) (zoomLevel s) (pin s).
Definition set_containerData (c : ContainerData) : state :=
  mkState (shouldDisplayModal s) (imageData s) c (offsetData s)
          (zoomData s) (dragData s) (dragOffset s) (zoomLevel s) (pin s).
Definition set_offsetData (o : OffsetData) : state :=
  mkState (shouldDisplayModal s) (imageData s) (containerData s) o
          (zoomData s) (dragData s) (dragOffset s) (zoomLevel s) (pin s).
Definition set_zoomData (z : ZoomData) : state :=
  mkState (shouldDisplayModal s) (imageData s) (containerData s)
          (offsetData s) z (dragData s) (dragOffset s) (zoomLevel s) (pin s).
Definition set_dragData (d : DragData) : state :=
  mkState (shouldDisplayModal s) (imageData s) (containerData s)
          (offsetData s) (zoomData s) d (dragOffset s) (zoomLevel s) (pin s).
Definition setDragOffset (p : Point) : state :=
  mkState (shouldDisplayModal s) (imageData s) (containerData s)
          (offsetData s) (zoomData s) (dragData s) p (zoomLevel s) (pin s).
Definition setZoomLevel (z : Q) : state :=
  mkState (shouldDisplayModal s) (imageData s) (containerData s)
          (offsetData s) (zoomData s) (dragData s) (dragOffset s) z (pin s).
Definition setPin (p : Point) : state :=
  mkState (shouldDisplayModal s) (imageData s) (containerData s)
          (offsetData s) (zoomData s) (dragData s) (dragOffset s)
          (zoomLevel s) p.
End Setters.

(** ** Handlers *)

(** [onToggleModal], line 14. *)
Definition onToggleModal (s : state) : state :=
  set_shouldDisplayModal s (negb (shouldDisplayModal s)).

(** [img.onload], lines 77-82. *)
Definition img_onload (img : Size) (s : state) : state :=
  set_imageData s {| width := width img; height := height img |}.

(** [onLoadContainer], lines 89-120.  The two ratios are the code's
    quotients where the image's width and height are not zero. *)
Definition onLoadContainer (r : option HTMLDivElement) (s : state) : state :=
  match r with
  | Some r =>
    let s := set_containerData s
               (mkContainer (clientWidth r) (clientHeight r)
                            (imageRef (containerData s))) in
    let iw := width (imageData s) in
    let ih := height (imageData s) in
    let cw := c_width (containerData s) in
    let ch := c_height (containerData s) in
    let zl :=
      if JS.gt iw cw || JS.gt ih ch
      then JS.Math_min (cw / iw) (ch / ih)
      else 1 in
    let s := set_zoomData s {| z_min := zl; z_max := 3; z_current := zl |} in
    let s := setZoomLevel s zl in
    let s := set_offsetData s
               {| baseX := (iw - cw) / 2; baseY := (ih - ch) / 2;
                  dragX := 0; dragY := 0 |} in
    setDragOffset s {| px := 0; py := 0 |}
  | None => s
  end.

(** [zoomIn], lines 127-139. *)
Definition zoomIn (s : state) : state :=
  let z := zoomLevel s in
  let nz := clamp (z + (1 # 10)) (z_min (zoomData s)) (z_max (zoomData s)) in
  let s := set_zoomData s
             (mkZoom (z_min (zoomData s)) (z_max (zoomData s)) nz) in
  setZoomLevel s nz.

(** The updater of [setDragOffset] in [zoomOut] and [onDragMove]: clamp
    both coordinates and copy them into [offsetDataRef]. *)
Definition clampDragOffset (target : Point) (oversizeX oversizeY : Q)
    (s : state) : state :=
  let x := clamp (px target) (- oversizeX / 2) (oversizeX / 2) in
  let y := clamp (py target) (- oversizeY / 2) (oversizeY / 2) in
  let s := set_offsetData s
             (mkOffset (baseX (offsetData s)) (baseY (offsetData s)) x y) in
  setDragOffset s {| px := x; py := y |}.

(** [zoomOut], lines 142-169. *)
Definition zoomOut (s : state) : state :=
  let z := zoomLevel s in
  let nz := clamp (z - (1 # 10)) (z_min (zoomData s)) (z_max (zoomData s)) in
  let s := set_zoomData s
             (mkZoom (z_min (zoomData s)) (z_max (zoomData s)) nz) in
  let oversizeX :=
    JS.Math_max (width (imageData s) * nz - c_width (containerData s)) 0 in
  let oversizeY :=
    JS.Math_max (height (imageData s) * nz - c_height (containerData s)) 0 in
  let s := clampDragOffset (dragOffset s) oversizeX oversizeY s in
  setZoomLevel s nz.

(** [onDragStart], lines 176-178. *)
Definition onDragStart (s : state) : state :=
  set_dragData s {| isDragging := true |}.

(** [onDragMove], lines 181-201. *)
Definition onDragMove (e : MouseEvent) (s : state) : state :=
  if isDragging (dragData s) then
    let oversizeX :=
      JS.Math_max (width (imageData s) * z_current (zoomData s)
                   - c_width (containerData s)) 0 in
    let oversizeY :=
      JS.Math_max (height (imageData s) * z_current (zoomData s)
                   - c_height (containerData s)) 0 in
    let prev := dragOffset s in
    clampDragOffset
      {| px := px prev - movementX e; py := py prev - movementY e |}
      oversizeX oversizeY s
  else s.

(** [onDragEnd], lines 204-206. *)
Definition onDragEnd (s : state) : state :=
  set_dragData s {| isDragging := false |}.

(** [onPinPlace], lines 212-220.  [getBoundingClientRect] is the browser's
    answer for the element at the time of the event.  The two quotients are
    the code's where the cached zoom is not zero. *)
Definition onPinPlace (getBoundingClientRect : HTMLDivElement -> DOMRect)
    (e : MouseEvent) (s : state) : state :=
  match imageRef (containerData s) with
  | Some el =>
    let box := getBoundingClientRect el in
    setPin s {| px := (clientX e - box_x box) / z_current (zoomData s);
                py := (clientY e - box_y box) / z_current (zoomData s) |}
  | None => s
  end.

(** [onLoadImage], lines 225-233 (the listeners it registers are the
    handlers above). *)
Definition onLoadImage (r : option HTMLDivElement) (s : state) : state :=
  match r with
  | Some r =>
    set_containerData s
      (mkContainer (c_width (containerData s)) (c_height (containerData s))
                   (Some r))
  | None => s
  end.

(** ** Rendering *)

(** The [transform] style of the image, line 249. *)
Record Transform := mkTransform {
  translateX : Q; translateY : Q; scale : Q }.

(** The pin marker, lines 253-265: [left], [top] and the scale of its own
    [transform]. *)
Record PinMarker := mkMarker { m_left : Q; m_top : Q; m_scale : Q }.

(** The enlarged view, lines 240-273: the image with its size and
    transform, the pin markers that are its children, and the zoom level
    shown between the buttons. *)
Record LargeView := mkLarge {
  v_width : Q; v_height : Q;
  v_transform : Transform;
  v_markers : list PinMarker;
  v_zoom : Q }.

Inductive View :=
| SmallImage
| LargeImage (v : LargeView).

Definition image_transform (s : state) : Transform :=
  {| translateX := - baseX (offsetData s) - px (dragOffset s);
     translateY := - baseY (offsetData s) - py (dragOffset s);
     scale := zoomLevel s |}.

Definition pin_marker (s : state) : PinMarker :=
  {| m_left := px (pin s); m_top := py (pin s);
     m_scale := 1 / zoomLevel s |}.

(** The element returned by [ZoomDesktop], lines 235-289. *)
Definition render (s : state) : View :=
  if shouldDisplayModal s then
    LargeImage {| v_width := width (imageData s);
                  v_height := height (imageData s);
                  v_transform := image_transform s;
                  v_markers := [pin_marker s];
                  v_zoom := zoomLevel s |}
  else SmallImage.

(** The pin markers the render surface receives. *)
Definition markers_of (v : View) : list PinMarker :=
  match v with
  | SmallImage => []
  | LargeImage l => v_markers l
  end.

(** ** The browser's side of the transform

    The image is a box of size [size] laid out at [layout]; its
    [transform] translates it and scales it about a transform origin [o]
    given in the box's own coordinates.  A point [p] of the box, also in
    the box's coordinates, is shown at [toScreen p].  The bounding
    rectangle starts at the smaller of the screen coordinates of the two
    corners [(0, 0)] and [(width, height)], on each axis. *)
Module Browser.
Section Box.
Variables (layout o : Point) (size : Size) (tr : Transform).

Definition toScreen (p : Point) : Point :=
  {| px := px layout + translateX tr + px o + (px p - px o) * scale tr;
     py := py layout + translateY tr + py o + (py p - py o) * scale tr |}.

Definition getBoundingClientRect : DOMRect :=
  let c0 := toScreen {| px := 0; py := 0 |} in
  let c1 := toScreen {| px := width size; py := height size |} in
  {| box_x := Qmin (px c0) (px c1); box_y := Qmin (py c0) (py c1) |}.

Definition click_at (p : Point) : MouseEvent :=
  {| clientX := px p; clientY := py p; movementX := 0; movementY := 0 |}.
End Box.
End Browser.

(** ** The policies as the specification words them *)

Module Spec.

Record ZoomRange := mkRange { min : Q; max : Q }.

(** [computeRange(image, container)]. *)
Definition computeRange (image container : Size) : ZoomRange :=
  {| min :=
       if Qle_bool (width image) (width container)
          && Qle_bool (height image) (height container)
       then 1
       else Qmin (width container / width image)
                 (height container / height image);
     max := 3 |}.

(** [step(current, delta)]. *)
Definition step (range : ZoomRange) (current delta : Q) : Q :=
  clamp (current + delta) (min range) (max range).

(** [oversize(imageDim, containerDim, zoom)]. *)
Definition oversize (imageDim containerDim zoom : Q) : Q :=
  Qmax (imageDim * zoom - containerDim) 0.

(** Clamping [x] to the interval [[lo, hi]]: [lo] when [x] is at or below
    it, [hi] when [x] is at or above it, [x] itself in between. *)
Definition clampTo (x lo hi : Q) : Q :=
  if Qle_bool x lo then lo
  else if Qle_bool hi x then hi
  else x.

(** [clampOffset(offset, image, container, zoom)]: each axis clamped,
    independently, to [[- oversize / 2, + oversize / 2]]. *)
Definition clampOffset (offset : Point) (image container : Size) (zoom : Q)
    : Point :=
  let ox := oversize (width image) (width container) zoom in
  let oy := oversize (height image) (height container) zoom in
  {| px := clampTo (px offset) (- ox / 2) (ox / 2);
     py := clampTo (py offset) (- oy / 2) (oy / 2) |}.

(** [placement(base, pan, zoom)]. *)
Definition placement (base pan : Point) (zoom : Q) : Transform :=
  {| translateX := - px base - px pan;
     translateY := - py base - py pan;
     scale := zoom |}.

(** [screenToImageLocal(screenPoint, containerOriginOnScreen, zoom)]. *)
Definition screenToImageLocal (screenPoint origin : Point) (zoom : Q)
    : Point :=
  {| px := (px screenPoint - px origin) / zoom;
     py := (py screenPoint - py origin) / zoom |}.

End Spec.

(** The state seen through the specification's data model. *)
Definition image_of (s : state) : Size := imageData s.
Definition container_of (s : state) : Size :=
  {| width := c_width (containerData s);
     height := c_height (containerData s) |}.
Definition range_of (s : state) : Spec.ZoomRange :=
  {| Spec.min := z_min (zoomData s); Spec.max := z_max (zoomData s) |}.
Definition base_of (s : state) : Point :=
  {| px := baseX (offsetData s); py := baseY (offsetData s) |}.

(** ** Sessions *)

(** The commands of the input source and of the zoom buttons. *)
Inductive Op :=
| PointerDown
| PointerMove (e : MouseEvent)
| PointerUp
| ZoomIn
| ZoomOut
| DoubleClick (box : DOMRect) (e : MouseEvent).

Definition exec (o : Op) (s : state) : state :=
  match o with
  | PointerDown => onDragStart s
  | PointerMove e => onDragMove e s
  | PointerUp => onDragEnd s
  | ZoomIn => zoomIn s
  | ZoomOut => zoomOut s
  | DoubleClick box e => onPinPlace (fun _ => box) e s
  end.

Definition run (ops : list Op) (s : state) : state :=
  fold_left (fun s o => exec o s) ops s.

(** A click on the small image or on the [x] button: the display flag
    flips; when the enlarged view appears React calls the ref callbacks
    with the mounted elements, when it disappears with [null]. *)
Definition toggle (container image : HTMLDivElement) (s : state) : state :=
  let s := onToggleModal s in
  if shouldDisplayModal s
  then onLoadContainer (Some container) (onLoadImage (Some image) s)
  else onLoadContainer None (onLoadImage None s).

(** The session once the image has loaded and the viewer is open. *)
Definition opened (img : Size) (container image : HTMLDivElement) : state :=
  toggle container image (img_onload img init).

(** Everything that can happen to a mounted component. *)
Inductive Event :=
| ImageLoaded (img : Size)
| Toggle (container image : HTMLDivElement)
| Command (o : Op).

Definition dispatch (ev : Event) (s : state) : state :=
  match ev with
  | ImageLoaded img => img_onload img s
  | Toggle c i => toggle c i s
  | Command o => exec o s
  end.

Definition play (evs : list Event) (s : state) : state :=
  fold_left (fun s ev => dispatch ev s) evs s.

(** ** Vocabulary of the properties *)

(** The two states of the drag gesture, read off the drag flag. *)
Inductive DragState := Idle | Dragging.

Definition drag_state (s : state) : DragState :=
  if isDragging (dragData s) then Dragging else Idle.

(** The pan offset a pointer move asks for, before clamping. *)
Definition moved (s : state) (e : MouseEvent) : Point :=
  {| px := px (dragOffset s) - movementX e;
     py := py (dragOffset s) - movementY e |}.

(** No double-click among the events. *)
Definition is_placement (ev : Event) : bool :=
  match ev with
  | Command (DoubleClick _ _) => true
  | _ => false
  end.

Definition no_placement (evs : list Event) : bool :=
  forallb (fun ev => negb (is_placement ev)) evs.

(** The two copies of the zoom level and of the pan offset agree. *)
Definition coherent (s : state) : Prop :=
  z_current (zoomData s) = zoomLevel s /\
  dragX (offsetData s) = px (dragOffset s) /\
  dragY (offsetData s) = py (dragOffset s).

(** The zoom level is inside the zoom range. *)
Definition zoom_in_range (s : state) : Prop :=
  z_min (zoomData s) <= zoomLevel s <= z_max (zoomData s).

(** The pan offset is within half the oversize on both axes. *)
Definition pan_bounded (s : state) : Prop :=
  Qabs (px (dragOffset s)) <=
    Spec.oversize (width (imageData s)) (c_width (containerData s))
                  (zoomLevel s) / 2 /\
  Qabs (py (dragOffset s)) <=
    Spec.oversize (height (imageData s)) (c_height (containerData s))
                  (zoomLevel s) / 2.

(** What a run of commands maintains, for an image of size that is not
    negative. *)
Record pan_invariant (s : state) : Prop := mkPanInv {
  inv_width : 0 <= width (imageData s);
  inv_height : 0 <= height (imageData s);
  inv_coherent : coherent s;
  inv_zoom : zoom_in_range s;
  inv_pan : pan_bounded s
}.

(** The sizes an event records are positive. *)
Definition positive_event (ev : Event) : Prop :=
  match ev with
  | ImageLoaded img => 0 < width img /\ 0 < height img
  | Toggle c _ => 0 < clientWidth c /\ 0 < clientHeight c
  | Command _ => True
  end.

(** The sizes an image load records are positive. *)
Definition positive_image (ev : Event) : Prop :=
  match ev with
  | ImageLoaded img => 0 < width img /\ 0 < height img
  | _ => True
  end.

(** The divisors the handler of an event evaluates in a state.  When the
    viewer opens, [onLoadContainer] divides by the image's width and height
    in the two ratios (lines 101-102, if the image does not fit) and by 2
    in the base offset (lines 112, 114).  [zoomOut] and, while dragging,
    [onDragMove] divide the two oversizes by 2, twice each (lines 160-161,
    194-195).  [onPinPlace] divides by the cached zoom, twice (lines
    216-217, if the handle is there). *)
Definition divisors (ev : Event) (s : state) : list Q :=
  match ev with
  | Toggle c _ =>
    if shouldDisplayModal s then []
    else
      (if JS.gt (width (imageData s)) (clientWidth c)
          || JS.gt (height (imageData s)) (clientHeight c)
       then [width (imageData s); height (imageData s)]
       else [])
      ++ [2; 2]
  | Command ZoomOut => [2; 2; 2; 2]
  | Command (PointerMove _) =>
    if isDragging (dragData s) then [2; 2; 2; 2] else []
  | Command (DoubleClick _ _) =>
    match imageRef (containerData s) with
    | Some _ => [z_current (zoomData s); z_current (zoomData s)]
    | None => []
    end
  | _ => []
  end.

(** The divisor rendering evaluates: the zoom level in the scale of the
    pin marker (line 263). *)
Definition render_divisors (s : state) : list Q :=
  if shouldDisplayModal s then [zoomLevel s] else [].

(** What a session with positive sizes maintains. *)
Record positive_invariant (s : state) : Prop := mkPosInv {
  pos_width : 0 < width (imageData s);
  pos_height : 0 < height (imageData s);
  pos_min : 0 < z_min (zoomData s);
  pos_level : z_min (zoomData s) <= zoomLevel s;
  pos_current : z_min (zoomData s) <= z_current (zoomData s)
}.

(** No image load, and no click on the small image or the [x] button,
    among the events. *)
Definition is_image_load (ev : Event) : bool :=
  match ev with
  | ImageLoaded _ => true
  | _ => false
  end.

Definition no_image_load (evs : list Event) : bool :=
  forallb (fun ev => negb (is_image_load ev)) evs.

Definition is_toggle (ev : Event) : bool :=
  match ev with
  | Toggle _ _ => true
  | _ => false
  end.

Definition no_toggle (evs : list Event) : bool :=
  forallb (fun ev => negb (is_toggle ev)) evs.

(** The centre of the rendered image box, the default transform origin. *)
Definition centre_of (s : state) : Point :=
  {| px := width (imageData s) / 2; py := height (imageData s) / 2 |}.

(** The corner of the rendered image box opposite to [(0, 0)]. *)
Definition far_corner (s : state) : Point :=
  {| px := width (imageData s); py := height (imageData s) |}.

(** [n] tenths, the zoom travelled by [n] clicks on a zoom button. *)
Definition tenths (n : nat) : Q := inject_Z (Z.of_nat n) * (1 # 10).

(** What a session keeps of the zoom range when the recorded image sizes
    are positive. *)
Record range_invariant (s : state) : Prop := mkRangeInv {
  rng_width : 0 < width (imageData s);
  rng_height : 0 < height (imageData s);
  rng_min : z_min (zoomData s) <= 1;
  rng_max : z_max (zoomData s) = 3;
  rng_zoom : zoom_in_range s
}.

(** ** Proof steps *)

(** Split a conjunction into its conjuncts, and nothing else. *)
Ltac conjuncts := repeat match goal with |- _ /\ _ => split end.

(** Settle a closed goal by evaluation. *)
Ltac evaluate := vm_compute; first [reflexivity | discriminate].

(** Halves, for [lra]. *)
Ltac halves := unfold Qdiv in *; change (/ 2) with (1 # 2) in *.

(** Case analysis on one [Math.max], [Math.min] or [clamp] of the goal. *)
Ltac split_max a b :=
  let H := fresh "Hmax" in
  destruct (Q.max_spec a b) as [[? H] | [? H]];
  revert H; generalize (Qmax a b); intros ? H.

Ltac split_min a b :=
  let H := fresh "Hmin" in
  destruct (Q.min_spec a b) as [[? H] | [? H]];
  revert H; generalize (Qmin a b); intros ? H.

Ltac split_clamp x lo hi :=
  unfold clamp, JS.Math_max, JS.Math_min;
  split_min x hi;
  match goal with
  | |- context [Qmax lo ?m] => split_max lo m
  end.

(** * Properties *)

(** ** Comparison and clamping *)

Lemma gt_spec (a b : Q) : JS.gt a b = true <-> b < a.
Proof. unfold JS.gt, Qlt. apply Z.ltb_lt. Qed.

Lemma gt_false (a b : Q) : JS.gt a b = false <-> a <= b.
Proof. unfold JS.gt, Qle. apply Z.ltb_ge. Qed.

Lemma gt_not_le (a b : Q) : JS.gt a b = negb (Qle_bool a b).
Proof. unfold JS.gt, Qle_bool. apply Z.ltb_antisym. Qed.

Lemma positive_not_zero (d : Q) : 0 < d -> ~ d == 0.
Proof. intros Hpos Heq. rewrite Heq in Hpos. apply (Qlt_irrefl 0 Hpos). Qed.

Lemma clamp_lower (x lo hi : Q) : lo <= clamp x lo hi.
Proof. apply Q.le_max_l. Qed.

Lemma clamp_upper (x lo hi : Q) : lo <= hi -> clamp x lo hi <= hi.
Proof.
  intros Hle. apply Q.max_lub; [exact Hle | apply Q.le_min_r].
Qed.

Lemma clamp_inside (x lo hi : Q) : lo <= x <= hi -> clamp x lo hi == x.
Proof.
  intros [Hlo Hhi]. unfold clamp, JS.Math_max, JS.Math_min.
  rewrite (Q.min_l x hi Hhi). apply Q.max_r. exact Hlo.
Qed.

Lemma oversize_nonneg (d c z : Q) : 0 <= Spec.oversize d c z.
Proof. apply Q.le_max_r. Qed.

Lemma oversize_mono (d c z z' : Q) :
  0 <= d -> z <= z' -> Spec.oversize d c z <= Spec.oversize d c z'.
Proof.
  intros Hd Hz. apply Q.max_le_compat_r.
  assert (z * d <= z' * d) by (apply Qmult_le_compat_r; assumption).
  rewrite !(Qmult_comm d). lra.
Qed.

(** ** Initialisation on container mount *)

Lemma fit_condition (iw ih cw ch : Q) :
  JS.gt iw cw || JS.gt ih ch = negb (Qle_bool iw cw && Qle_bool ih ch).
Proof. rewrite !gt_not_le, negb_andb. reflexivity. Qed.

Lemma onLoadContainer_min (r : HTMLDivElement) (s : state) :
  z_min (zoomData (onLoadContainer (Some r) s)) =
  Spec.min (Spec.computeRange (imageData s)
              (mkSize (clientWidth r) (clientHeight r))).
Proof.
  cbn. rewrite fit_condition.
  destruct (Qle_bool _ _ && Qle_bool _ _); reflexivity.
Qed.

(** What [onLoadContainer] leaves behind on a mounted container. *)
Lemma onLoadContainer_effect (r : HTMLDivElement) (s : state) :
  let s' := onLoadContainer (Some r) s in
  let iw := width (imageData s) in
  let ih := height (imageData s) in
  let cw := clientWidth r in
  let ch := clientHeight r in
  imageData s' = imageData s /\
  container_of s' = mkSize cw ch /\
  range_of s' = Spec.computeRange (image_of s') (container_of s') /\
  z_min (zoomData s') =
    (if Qle_bool iw cw && Qle_bool ih ch then 1
     else Qmin (cw / iw) (ch / ih)) /\
  z_max (zoomData s') = 3 /\
  zoomLevel s' = z_min (zoomData s') /\
  z_current (zoomData s') = z_min (zoomData s') /\
  base_of s' = mkPoint ((iw - cw) / 2) ((ih - ch) / 2) /\
  dragOffset s' = mkPoint 0 0 /\
  dragX (offsetData s') = 0 /\ dragY (offsetData s') = 0.
Proof.
  intros s' iw ih cw ch.
  pose proof (onLoadContainer_min r s) as Hmin.
  repeat split; try reflexivity.
  - unfold range_of. fold s' in Hmin. rewrite Hmin. reflexivity.
  - exact Hmin.
Qed.

(** ** The zoom range *)

Section Range.
Variables (r : HTMLDivElement) (s : state).
Let s' := onLoadContainer (Some r) s.
Let iw := width (imageData s).
Let ih := height (imageData s).
Let cw := clientWidth r.
Let ch := clientHeight r.

Lemma min_when_fits :
  iw <= cw -> ih <= ch -> z_min (zoomData s') = 1.
Proof.
  intros Hw Hh. cbn.
  apply gt_false in Hw, Hh.
  fold iw ih cw ch. rewrite Hw, Hh. reflexivity.
Qed.

Lemma min_when_larger :
  cw < iw \/ ch < ih -> z_min (zoomData s') = Qmin (cw / iw) (ch / ih).
Proof.
  intros H. cbn. fold iw ih cw ch.
  assert (JS.gt iw cw || JS.gt ih ch = true) as ->; [| reflexivity].
  apply orb_true_iff. destruct H; [left | right]; now apply gt_spec.
Qed.

Hypothesis iw_pos : 0 < iw.
Hypothesis ih_pos : 0 < ih.

Lemma min_below_one_iff :
  z_min (zoomData s') < 1 <-> (cw < iw \/ ch < ih).
Proof.
  split.
  - intros Hlt.
    destruct (Qlt_le_dec cw iw) as [|Hw]; [now left |].
    destruct (Qlt_le_dec ch ih) as [|Hh]; [now right |].
    rewrite (min_when_fits Hw Hh) in Hlt. lra.
  - intros H. rewrite (min_when_larger H).
    apply Q.min_lt_iff.
    destruct H; [left | right]; apply Qlt_shift_div_r; lra.
Qed.

Lemma min_at_most_one : z_min (zoomData s') <= 1.
Proof.
  destruct (Qlt_le_dec cw iw) as [Hw|Hw].
  - apply Qlt_le_weak, min_below_one_iff. now left.
  - destruct (Qlt_le_dec ch ih) as [Hh|Hh].
    + apply Qlt_le_weak, min_below_one_iff. now right.
    + rewrite (min_when_fits Hw Hh). lra.
Qed.

Lemma min_positive : 0 < cw -> 0 < ch -> 0 < z_min (zoomData s').
Proof.
  intros Hcw Hch.
  destruct (Qlt_le_dec cw iw) as [Hw|Hw];
    [| destruct (Qlt_le_dec ch ih) as [Hh|Hh]].
  3: rewrite (min_when_fits Hw Hh); lra.
  all: rewrite min_when_larger by (now left + now right).
  all: apply Q.min_glb_lt; apply Qlt_shift_div_l; lra.
Qed.
End Range.

(** C1.  Once [onLoadContainer] has run on a mounted container, the
    container's size is recorded, the maximum of the zoom range is 3, the
    zoom level and its cached copy are the minimum of the range, the base
    offset is half the difference of the sizes, and the pan offset and its
    cached copy are zero.  The minimum is 1 when the image fits on both
    axes; for an image of positive width and height that does not, it is
    the smaller of the two ratios of container size to image size, and the
    range is the one [computeRange] gives for the recorded sizes. *)
Theorem onLoadContainer_initialises (r : HTMLDivElement) (s : state) :
  let s' := onLoadContainer (Some r) s in
  let iw := width (imageData s) in
  let ih := height (imageData s) in
  let cw := clientWidth r in
  let ch := clientHeight r in
  (imageData s' = imageData s /\
   container_of s' = mkSize cw ch /\
   z_max (zoomData s') = 3 /\
   zoomLevel s' = z_min (zoomData s') /\
   z_current (zoomData s') = z_min (zoomData s') /\
   base_of s' = mkPoint ((iw - cw) / 2) ((ih - ch) / 2) /\
   dragOffset s' = mkPoint 0 0 /\
   dragX (offsetData s') = 0 /\ dragY (offsetData s') = 0) /\
  (iw <= cw -> ih <= ch -> z_min (zoomData s') = 1) /\
  (0 < iw -> 0 < ih ->
   (~ (iw <= cw /\ ih <= ch) ->
    z_min (zoomData s') = Qmin (cw / iw) (ch / ih)) /\
   range_of s' = Spec.computeRange (image_of s') (container_of s')).
Proof.
  intros s' iw ih cw ch. split; [| split].
  - conjuncts; reflexivity.
  - intros Hw Hh. exact (min_when_fits r s Hw Hh).
  - intros _ _. split.
    + intros Hnot. apply (min_when_larger r s).
      destruct (Qlt_le_dec cw iw) as [Hlt | Hw]; [now left |].
      destruct (Qlt_le_dec ch ih) as [Hlt | Hh]; [now right |].
      exfalso. apply Hnot. split; assumption.
    + unfold range_of. unfold s'. rewrite (onLoadContainer_min r s).
      reflexivity.
Qed.

Lemma onLoadContainer_initialises_witness :
  let s' := onLoadContainer (Some (mkDiv 500 500))
              (img_onload (mkSize 2000 1000) init) in
  z_min (zoomData s') = Qmin (500 / 2000) (500 / 1000) /\
  range_of s' = Spec.computeRange (image_of s') (container_of s') /\
  zoomLevel s' = z_min (zoomData s') /\
  base_of s' = mkPoint ((2000 - 500) / 2) ((1000 - 500) / 2).
Proof.
  destruct (onLoadContainer_initialises (mkDiv 500 500)
              (img_onload (mkSize 2000 1000) init))
    as ((_ & _ & _ & Hlvl & _ & Hbase & _) & _ & Hratio).
  destruct (Hratio eq_refl eq_refl) as [Hmin Hrange].
  split; [apply Hmin; intros [Hw _]; apply Hw; reflexivity |].
  exact (conj Hrange (conj Hlvl Hbase)).
Defined.

Lemma range_after_load (r : HTMLDivElement) (s : state) :
  0 < width (imageData s) -> 0 < height (imageData s) ->
  z_min (zoomData (onLoadContainer (Some r) s)) <= 1 /\
  z_min (zoomData (onLoadContainer (Some r) s)) <=
    z_max (zoomData (onLoadContainer (Some r) s)).
Proof.
  intros Hw Hh. pose proof (min_at_most_one r s Hw Hh) as Hone.
  split; [exact Hone |].
  change (z_max (zoomData (onLoadContainer (Some r) s))) with 3. lra.
Qed.

(** C9, as the code has it.  For an image of positive size the minimum of
    the zoom range never exceeds 1, it is below 1 exactly when the image is
    strictly larger than the container on some axis, and it never exceeds
    the maximum. *)
Theorem zoom_range_ordering (r : HTMLDivElement) (s : state) :
  0 < width (imageData s) -> 0 < height (imageData s) ->
  let s' := onLoadContainer (Some r) s in
  z_min (zoomData s') <= 1 /\
  (z_min (zoomData s') < 1 <->
   (c_width (containerData s') < width (imageData s') \/
    c_height (containerData s') < height (imageData s'))) /\
  z_min (zoomData s') <= z_max (zoomData s').
Proof.
  intros Hw Hh s'.
  pose proof (min_at_most_one r s Hw Hh) as Hone.
  split; [exact Hone |]. split.
  - exact (min_below_one_iff r s Hw Hh).
  - change (z_max (zoomData s')) with 3. fold s' in Hone. lra.
Qed.

Lemma zoom_range_ordering_witness :
  let s' := onLoadContainer (Some (mkDiv 500 500))
              (img_onload (mkSize 2000 1000) init) in
  z_min (zoomData s') <= 1 /\
  (z_min (zoomData s') < 1 <->
   (c_width (containerData s') < width (imageData s') \/
    c_height (containerData s') < height (imageData s'))) /\
  z_min (zoomData s') <= z_max (zoomData s').
Proof.
  apply (zoom_range_ordering (mkDiv 500 500)
           (img_onload (mkSize 2000 1000) init)); reflexivity.
Defined.

(** C9, as it is worded, fails for an image 300 x 200 in a container
    500 x 500: the minimum is 1, which is at most 1, although the image is
    smaller than the container on both axes. *)
Lemma zoom_range_ordering_counterexample :
  let s' := onLoadContainer (Some (mkDiv 500 500))
              (img_onload (mkSize 300 200) init) in
  z_min (zoomData s') == 1 /\
  ~ (z_min (zoomData s') <= 1 <->
     (c_width (containerData s') <= width (imageData s') \/
      c_height (containerData s') <= height (imageData s'))).
Proof.
  cbv zeta. split; [reflexivity |].
  intros [Himp _].
  assert (Hle : z_min (zoomData (onLoadContainer (Some (mkDiv 500 500))
                         (img_onload (mkSize 300 200) init))) <= 1)
    by (vm_compute; discriminate).
  destruct (Himp Hle) as [H | H]; vm_compute in H; apply H; reflexivity.
Qed.

(** ** Zoom steps *)

(** C4.  A step from a zoom level inside the range stays inside the range,
    whatever the increment; [zoomIn] is the step by 1/10 and [zoomOut] the
    step by -1/10 of the current zoom level, stored in the state and in its
    cached copy, and neither changes the range. *)
Theorem step_clamp (range : Spec.ZoomRange) (current delta : Q) (s : state) :
  Spec.min range <= current <= Spec.max range ->
  (Spec.step range current delta =
     clamp (current + delta) (Spec.min range) (Spec.max range) /\
   Spec.min range <= Spec.step range current delta <= Spec.max range) /\
  (zoomLevel (zoomIn s) = Spec.step (range_of s) (zoomLevel s) (1 # 10) /\
   z_current (zoomData (zoomIn s)) = zoomLevel (zoomIn s) /\
   range_of (zoomIn s) = range_of s) /\
  (zoomLevel (zoomOut s) = Spec.step (range_of s) (zoomLevel s) (- (1 # 10)) /\
   z_current (zoomData (zoomOut s)) = zoomLevel (zoomOut s) /\
   range_of (zoomOut s) = range_of s).
Proof.
  intros [Hlo Hhi].
  split; [| split; repeat split; reflexivity].
  split; [reflexivity |]. unfold Spec.step. split.
  - apply clamp_lower.
  - apply clamp_upper. lra.
Qed.

Lemma step_clamp_witness :
  let s := opened (mkSize 2000 1000) (mkDiv 500 500) (mkDiv 2000 1000) in
  Spec.min (range_of s) <=
    Spec.step (range_of s) (zoomLevel s) (- (1 # 10)) <=
  Spec.max (range_of s) /\
  zoomLevel (zoomOut s) == 1 # 4 /\
  zoomLevel (zoomIn s) == 35 # 100.
Proof.
  intros s.
  assert (Hin : Spec.min (range_of s) <= zoomLevel s
                 <= Spec.max (range_of s))
    by (split; vm_compute; discriminate).
  destruct (step_clamp (range_of s) (zoomLevel s) (- (1 # 10)) s Hin)
    as [[_ Hrange] [[Hin_eq _] [Hout_eq _]]].
  split; [exact Hrange |].
  rewrite Hin_eq, Hout_eq. split; reflexivity.
Defined.

(** ** The drag gesture *)

Lemma onDragMove_dragging (e : MouseEvent) (s : state) :
  isDragging (dragData s) = true ->
  onDragMove e s =
  clampDragOffset (moved s e)
    (Spec.oversize (width (imageData s)) (c_width (containerData s))
       (z_current (zoomData s)))
    (Spec.oversize (height (imageData s)) (c_height (containerData s))
       (z_current (zoomData s)))
    s.
Proof. intros H. unfold onDragMove. rewrite H. reflexivity. Qed.

Lemma onDragMove_idle (e : MouseEvent) (s : state) :
  isDragging (dragData s) = false -> onDragMove e s = s.
Proof. intros H. unfold onDragMove. rewrite H. reflexivity. Qed.

Lemma clamp_is_clampTo (x lo hi : Q) :
  lo <= hi -> clamp x lo hi == Spec.clampTo x lo hi.
Proof.
  intros Hle. unfold Spec.clampTo.
  destruct (Qle_bool x lo) eqn:Hlo.
  - apply Qle_bool_iff in Hlo. split_clamp x lo hi; lra.
  - assert (Hlo' : lo < x).
    { apply Qnot_le_lt. intros H. apply Qle_bool_iff in H. congruence. }
    destruct (Qle_bool hi x) eqn:Hhi.
    + apply Qle_bool_iff in Hhi. split_clamp x lo hi; lra.
    + assert (Hhi' : x < hi).
      { apply Qnot_le_lt. intros H. apply Qle_bool_iff in H. congruence. }
      apply clamp_inside. split; lra.
Qed.

Lemma clamp_half (x o : Q) :
  0 <= o ->
  clamp x (- o / 2) (o / 2) == Spec.clampTo x (- o / 2) (o / 2) /\
  - o / 2 <= clamp x (- o / 2) (o / 2) <= o / 2.
Proof.
  intros Ho.
  assert (Hle : - o / 2 <= o / 2) by (halves; lra).
  split; [apply clamp_is_clampTo, Hle |].
  split; [apply clamp_lower | apply clamp_upper, Hle].
Qed.

(** C3.  The drag session is a flag, so the gesture is in one of two
    states.  A pointer-down leads to Dragging and a pointer-up to Idle, and
    neither touches the pan offset, the zoom level or the pin.  A pointer
    move while Dragging stays in Dragging and replaces the pan offset, on
    each axis, by the pan offset minus the movement clamped to the interval
    from minus half to plus half the oversize at the current zoom held in
    the zoom cache: it is the value [clampOffset] gives and it lies in that
    interval; the cached copy gets the same value, and neither the zoom
    level nor the pin changes.  A pointer move while Idle returns the state
    it was given. *)
Theorem drag_machine (e : MouseEvent) (s : state) :
  (drag_state s = Idle \/ drag_state s = Dragging) /\
  (drag_state (onDragStart s) = Dragging /\
   onDragStart s = set_dragData s (mkDrag true)) /\
  (drag_state (onDragEnd s) = Idle /\
   onDragEnd s = set_dragData s (mkDrag false)) /\
  match drag_state s with
  | Dragging =>
    let s' := onDragMove e s in
    let zoom := z_current (zoomData s) in
    let ox := Spec.oversize (width (imageData s))
                (c_width (containerData s)) zoom in
    let oy := Spec.oversize (height (imageData s))
                (c_height (containerData s)) zoom in
    let p := Spec.clampOffset (moved s e) (image_of s) (container_of s)
               zoom in
    drag_state s' = Dragging /\
    (px (dragOffset s') == px p /\ py (dragOffset s') == py p) /\
    (- ox / 2 <= px (dragOffset s') <= ox / 2 /\
     - oy / 2 <= py (dragOffset s') <= oy / 2) /\
    (dragX (offsetData s') = px (dragOffset s') /\
     dragY (offsetData s') = py (dragOffset s')) /\
    zoomLevel s' = zoomLevel s /\ zoomData s' = zoomData s /\
    pin s' = pin s /\ imageData s' = imageData s /\
    containerData s' = containerData s /\ base_of s' = base_of s
  | Idle => onDragMove e s = s
  end.
Proof.
  unfold drag_state.
  split; [destruct (isDragging (dragData s)); auto |].
  split; [split; reflexivity |]. split; [split; reflexivity |].
  destruct (isDragging (dragData s)) eqn:Hd.
  2: apply onDragMove_idle, Hd.
  set (ox := Spec.oversize (width (imageData s))
               (c_width (containerData s)) (z_current (zoomData s))).
  set (oy := Spec.oversize (height (imageData s))
               (c_height (containerData s)) (z_current (zoomData s))).
  set (s' := onDragMove e s).
  assert (Hs' : s' = clampDragOffset (moved s e) ox oy s)
    by apply (onDragMove_dragging e s Hd).
  destruct (clamp_half (px (moved s e)) ox (oversize_nonneg _ _ _))
    as [Hx Hxin].
  destruct (clamp_half (py (moved s e)) oy (oversize_nonneg _ _ _))
    as [Hy Hyin].
  rewrite Hs'.
  split; [cbn; rewrite Hd; reflexivity |].
  split; [split; [exact Hx | exact Hy] |].
  split; [split; [exact Hxin | exact Hyin] |].
  conjuncts; reflexivity.
Qed.

(** ** Pin placement *)

(** C8.  Without an image handle [onPinPlace] returns the state it was
    given.  With a handle it changes the pin and nothing else; where the
    current zoom held in the zoom cache is not zero, the new pin is the
    click position minus the origin of the image's bounding rectangle,
    divided by that zoom. *)
Theorem pin_placement (getBoundingClientRect : HTMLDivElement -> DOMRect)
    (e : MouseEvent) (s : state) :
  match imageRef (containerData s) with
  | None => onPinPlace getBoundingClientRect e s = s
  | Some el =>
    let box := getBoundingClientRect el in
    let s' := onPinPlace getBoundingClientRect e s in
    s' = setPin s (pin s') /\
    (~ z_current (zoomData s) == 0 ->
     pin s' = Spec.screenToImageLocal
                (mkPoint (clientX e) (clientY e))
                (mkPoint (box_x box) (box_y box))
                (z_current (zoomData s)) /\
     px (pin s') = (clientX e - box_x box) / z_current (zoomData s) /\
     py (pin s') = (clientY e - box_y box) / z_current (zoomData s))
  end.
Proof.
  unfold onPinPlace.
  destruct (imageRef (containerData s)); [| reflexivity].
  split; [reflexivity |]. intros _. conjuncts; reflexivity.
Qed.

Lemma pin_placement_witness :
  let s := opened (mkSize 2000 1000) (mkDiv 500 500) (mkDiv 2000 1000) in
  let s' := onPinPlace (fun _ => mkRect 10 20) (mkMouse 110 70 0 0) s in
  s' = setPin s (pin s') /\
  px (pin s') == 400 /\ py (pin s') == 200.
Proof.
  intros s s'.
  assert (Href : imageRef (containerData s) = Some (mkDiv 2000 1000))
    by evaluate.
  assert (Hz : ~ z_current (zoomData s) == 0) by evaluate.
  pose proof (pin_placement (fun _ => mkRect 10 20) (mkMouse 110 70 0 0) s)
    as H.
  rewrite Href in H. cbv zeta in H. fold s' in H.
  destruct H as [Hframe Hpin]. destruct (Hpin Hz) as (_ & Hx & Hy).
  split; [exact Hframe |]. rewrite Hx, Hy. split; evaluate.
Defined.

(** ** The pin and its marker *)

Lemma dispatch_keeps_pin (ev : Event) (s : state) :
  is_placement ev = false -> pin (dispatch ev s) = pin s.
Proof.
  destruct ev as [img | c i | []]; cbn; try reflexivity; try discriminate.
  - intros _. unfold toggle. cbn.
    destruct (shouldDisplayModal s); reflexivity.
  - intros _. unfold onDragMove.
    destruct (isDragging (dragData s)); reflexivity.
Qed.

Lemma play_keeps_pin (evs : list Event) :
  forall s, no_placement evs = true -> pin (play evs s) = pin s.
Proof.
  induction evs as [| ev evs IH]; intros s Hno; [reflexivity |].
  cbn in Hno. apply andb_true_iff in Hno as [Hev Hrest].
  apply negb_true_iff in Hev.
  cbn. rewrite (IH _ Hrest). apply dispatch_keeps_pin, Hev.
Qed.





(** ** Closing and reopening *)

Lemma toggle_close (c i : HTMLDivElement) (s : state) :
  shouldDisplayModal s = true -> toggle c i s = onToggleModal s.
Proof. intros H. unfold toggle. cbn. rewrite H. reflexivity. Qed.

Lemma toggle_open (c i : HTMLDivElement) (s : state) :
  shouldDisplayModal s = false ->
  toggle c i s =
  onLoadContainer (Some c) (onLoadImage (Some i) (onToggleModal s)).
Proof. intros H. unfold toggle. cbn. rewrite H. reflexivity. Qed.

(** C7, as the code has it.  Closing the viewer only flips the display
    flag.  Reopening it runs the mount callbacks again: the container's
    size is recorded anew from the mounted container and the base offset
    is computed anew from it, the zoom level and its cached copy go back to
    the minimum of the zoom range, and the pan offset and its cached copy
    go back to zero; the pin, the drag flag and the image's size are what
    they were before closing.  For an image of positive width and height
    the zoom range is the one [computeRange] gives for the image and the
    container mounted at reopening. *)
Theorem reopen_resets (c i c' i' : HTMLDivElement) (s : state) :
  shouldDisplayModal s = true ->
  let closed := toggle c i s in
  let s' := toggle c' i' closed in
  closed = onToggleModal s /\
  shouldDisplayModal s' = true /\
  imageData s' = imageData s /\
  container_of s' = mkSize (clientWidth c') (clientHeight c') /\
  base_of s' = mkPoint ((width (imageData s) - clientWidth c') / 2)
                       ((height (imageData s) - clientHeight c') / 2) /\
  zoomLevel s' = z_min (zoomData s') /\
  z_current (zoomData s') = z_min (zoomData s') /\
  dragOffset s' = mkPoint 0 0 /\
  dragX (offsetData s') = 0 /\ dragY (offsetData s') = 0 /\
  pin s' = pin s /\
  dragData s' = dragData s /\
  (0 < width (imageData s) -> 0 < height (imageData s) ->
   range_of s' = Spec.computeRange (imageData s) (container_of s')).
Proof.
  intros Hopen closed s'.
  assert (Hclosed : closed = onToggleModal s) by (apply toggle_close, Hopen).
  assert (Hs' : s' = onLoadContainer (Some c')
                       (onLoadImage (Some i') (onToggleModal closed))).
  { apply toggle_open. rewrite Hclosed. cbn. rewrite Hopen. reflexivity. }
  split; [exact Hclosed |].
  pose proof (onLoadContainer_effect c'
                (onLoadImage (Some i') (onToggleModal closed))) as Hinit.
  cbv zeta in Hinit. rewrite <- Hs' in Hinit.
  destruct Hinit as (Himg & Hcont & Hrange & _ & _ & Hlvl & Hcur & Hbase
                     & Hpan & Hdx & Hdy).
  rewrite Hclosed in Himg, Hbase. cbn in Himg. cbn [imageData] in Hbase.
  conjuncts; try assumption.
  - rewrite Hs', Hclosed. cbn. rewrite Hopen. reflexivity.
  - rewrite Hs', Hclosed. reflexivity.
  - rewrite Hs', Hclosed. reflexivity.
  - intros _ _. rewrite Hrange. unfold image_of. rewrite Himg. reflexivity.
Qed.

Lemma reopen_resets_witness :
  let s := run [DoubleClick (mkRect 0 0) (mkMouse 100 50 0 0); PointerDown]
             (opened (mkSize 2000 1000) (mkDiv 500 500) (mkDiv 2000 1000)) in
  let s' := toggle (mkDiv 1000 1000) (mkDiv 2000 1000)
              (toggle (mkDiv 500 500) (mkDiv 2000 1000) s) in
  zoomLevel s' = z_min (zoomData s') /\
  dragOffset s' = mkPoint 0 0 /\
  pin s' = pin s /\
  dragData s' = dragData s /\
  (px (base_of s') == 500 /\ py (base_of s') == 0) /\
  range_of s' = Spec.computeRange (imageData s) (container_of s').
Proof.
  intros s s'.
  assert (Hw : 0 < width (imageData s)) by evaluate.
  assert (Hh : 0 < height (imageData s)) by evaluate.
  destruct (reopen_resets (mkDiv 500 500) (mkDiv 2000 1000)
              (mkDiv 1000 1000) (mkDiv 2000 1000) s eq_refl)
    as (_ & _ & _ & _ & Hbase & Hlvl & _ & Hpan & _ & _ & Hpin & Hdrag
        & Hrange).
  fold s' in Hbase.
  split; [exact Hlvl |]. split; [exact Hpan |]. split; [exact Hpin |].
  split; [exact Hdrag |].
  split; [rewrite Hbase; split; evaluate | exact (Hrange Hw Hh)].
Defined.

(** C7, as it is worded, fails in the session that places a pin, starts a
    drag, closes the viewer and reopens it in a container of another size:
    the pin is still where it was placed, the drag flag is still set, and
    the container's size and the zoom range have been written again. *)
Lemma reopen_counterexample :
  let s := run [DoubleClick (mkRect 0 0) (mkMouse 100 50 0 0); PointerDown]
             (opened (mkSize 2000 1000) (mkDiv 500 500) (mkDiv 2000 1000)) in
  let s' := toggle (mkDiv 1000 1000) (mkDiv 2000 1000)
              (toggle (mkDiv 500 500) (mkDiv 2000 1000) s) in
  (pin s' = pin s /\ px (pin s') == 400 /\ py (pin s') == 200 /\
   markers_of (render s') = [pin_marker s']) /\
  (isDragging (dragData s) = true /\ isDragging (dragData s') = true) /\
  (c_width (containerData s) == 500 /\ c_width (containerData s') == 1000) /\
  (z_min (zoomData s) == 1 # 4 /\ z_min (zoomData s') == 1 # 2).
Proof.
  cbv zeta. conjuncts; evaluate.
Qed.

(** ** Round trip through the rendered transform *)

Lemma image_transform_placement (s : state) :
  image_transform s =
  Spec.placement (base_of s) (dragOffset s) (zoomLevel s).
Proof. reflexivity. Qed.

Lemma toScreen_from_box (layout o : Point) (size : Size) (tr : Transform)
    (p : Point) :
  0 <= width size -> 0 <= height size -> 0 < scale tr ->
  let box := Browser.getBoundingClientRect layout o size tr in
  let q := Browser.toScreen layout o tr p in
  px q - box_x box == px p * scale tr /\
  py q - box_y box == py p * scale tr.
Proof.
  intros Hw Hh Hz. cbn.
  assert (Hsw : 0 <= width size * scale tr)
    by (apply Qmult_le_0_compat; lra).
  assert (Hsh : 0 <= height size * scale tr)
    by (apply Qmult_le_0_compat; lra).
  split.
  - rewrite Q.min_l; [ring |].
    setoid_replace ((width size - px o) * scale tr)
      with (width size * scale tr + (0 - px o) * scale tr) by ring.
    lra.
  - rewrite Q.min_l; [ring |].
    setoid_replace ((height size - py o) * scale tr)
      with (height size * scale tr + (0 - py o) * scale tr) by ring.
    lra.
Qed.

(** C5, as the code has it.  Let the image, of a size that is not
    negative, be shown under the transform the component renders (the
    placement of the base offset, the pan offset and the zoom level), and
    let the zoom level, equal to its cached copy, be positive.  A
    double-click on the screen position of an image-local point [p], with
    the bounding rectangle the browser reports for that transform, stores a
    pin equal to [p]. *)
Theorem pin_round_trip (layout o p : Point) (el : HTMLDivElement)
    (s : state) :
  imageRef (containerData s) = Some el ->
  z_current (zoomData s) = zoomLevel s ->
  0 <= width (imageData s) -> 0 <= height (imageData s) ->
  0 < zoomLevel s ->
  let tr := image_transform s in
  let origin := Browser.getBoundingClientRect layout o (imageData s) tr in
  let click := Browser.click_at (Browser.toScreen layout o tr p) in
  let s' := onPinPlace (fun _ => origin) click s in
  tr = Spec.placement (base_of s) (dragOffset s) (zoomLevel s) /\
  pin s' = Spec.screenToImageLocal (Browser.toScreen layout o tr p)
             (mkPoint (box_x origin) (box_y origin)) (zoomLevel s) /\
  px (pin s') == px p /\ py (pin s') == py p.
Proof.
  intros Href Hcur Hw Hh Hz tr origin click s'.
  split; [reflexivity |].
  assert (Hpin : pin s' = Spec.screenToImageLocal
                   (Browser.toScreen layout o tr p)
                   (mkPoint (box_x origin) (box_y origin)) (zoomLevel s)).
  { unfold s', onPinPlace. rewrite Href, Hcur. reflexivity. }
  split; [exact Hpin |]. rewrite Hpin.
  destruct (toScreen_from_box layout o (imageData s) tr p Hw Hh Hz)
    as [Hx Hy].
  assert (Hnz : ~ zoomLevel s == 0) by (apply positive_not_zero, Hz).
  unfold Spec.screenToImageLocal; cbn [px py].
  fold origin in Hx, Hy. split.
  - rewrite Hx. change (scale tr) with (zoomLevel s). now field.
  - rewrite Hy. change (scale tr) with (zoomLevel s). now field.
Qed.

Lemma pin_round_trip_witness :
  let s := opened (mkSize 2000 1000) (mkDiv 500 500) (mkDiv 2000 1000) in
  let tr := image_transform s in
  let layout := mkPoint 30 40 in
  let o := mkPoint 1000 500 in
  let p := mkPoint 120 80 in
  let s' := onPinPlace
              (fun _ => Browser.getBoundingClientRect layout o (imageData s) tr)
              (Browser.click_at (Browser.toScreen layout o tr p)) s in
  px (pin s') == 120 /\ py (pin s') == 80.
Proof.
  intros s tr layout o p s'.
  assert (Hw : 0 <= width (imageData s)) by evaluate.
  assert (Hh : 0 <= height (imageData s)) by evaluate.
  assert (Hz : 0 < zoomLevel s) by evaluate.
  destruct (pin_round_trip layout o p (mkDiv 2000 1000) s
              eq_refl eq_refl Hw Hh Hz) as (_ & _ & Hx & Hy).
  exact (conj Hx Hy).
Defined.

(** C5, as it is worded, fails for an image 2 x 2 in a container 0 x 0:
    the minimum of the zoom range is 0, so the zoom level 0 is inside the
    range; every image-local point is then shown at the same screen
    position, and the pin stored for the point (1, 1) is not (1, 1). *)
Lemma pin_round_trip_counterexample :
  let s := opened (mkSize 2 2) (mkDiv 0 0) (mkDiv 2 2) in
  let tr := image_transform s in
  let layout := mkPoint 0 0 in
  let o := mkPoint 1 1 in
  let p := mkPoint 1 1 in
  let s' := onPinPlace
              (fun _ => Browser.getBoundingClientRect layout o (imageData s) tr)
              (Browser.click_at (Browser.toScreen layout o tr p)) s in
  imageRef (containerData s) = Some (mkDiv 2 2) /\
  z_current (zoomData s) = zoomLevel s /\
  z_min (zoomData s) <= zoomLevel s <= z_max (zoomData s) /\
  zoomLevel s == 0 /\
  px (Browser.toScreen layout o tr p) ==
    px (Browser.toScreen layout o tr (mkPoint 0 0)) /\
  ~ px (pin s') == px p.
Proof.
  cbv zeta. conjuncts; evaluate.
Qed.

(** ** The pan offset stays within half the oversize *)

Lemma clamp_half_abs (x o : Q) :
  0 <= o -> Qabs (clamp x (- o / 2) (o / 2)) <= o / 2.
Proof.
  intros Ho. apply Qabs_Qle_condition.
  pose proof (clamp_lower x (- o / 2) (o / 2)) as Hlo.
  assert (Hhi : clamp x (- o / 2) (o / 2) <= o / 2)
    by (apply clamp_upper; halves; lra).
  split; [| exact Hhi]. halves. lra.
Qed.

Lemma clamp_step_up (z d lo hi : Q) :
  0 <= d -> z <= hi -> z <= clamp (z + d) lo hi.
Proof.
  intros Hd Hhi. unfold clamp, JS.Math_max, JS.Math_min.
  apply Qle_trans with (Qmin (z + d) hi); [| apply Q.le_max_r].
  apply Q.min_glb; lra.
Qed.

Lemma clamp_in_range (x lo hi : Q) :
  lo <= hi -> lo <= clamp x lo hi <= hi.
Proof.
  intros H. split; [apply clamp_lower | apply clamp_upper, H].
Qed.

Section PanInvariant.
Variable s : state.
Hypothesis inv : pan_invariant s.

Let range_ordered : z_min (zoomData s) <= z_max (zoomData s).
Proof. destruct (inv_zoom s inv). lra. Qed.

Lemma onDragStart_invariant : pan_invariant (onDragStart s).
Proof. destruct inv. constructor; assumption. Qed.

Lemma onDragEnd_invariant : pan_invariant (onDragEnd s).
Proof. destruct inv. constructor; assumption. Qed.

Lemma onPinPlace_invariant (box : DOMRect) (e : MouseEvent) :
  pan_invariant (onPinPlace (fun _ => box) e s).
Proof.
  unfold onPinPlace.
  destruct (imageRef (containerData s)); [| exact inv].
  destruct inv. constructor; assumption.
Qed.

Lemma onDragMove_invariant (e : MouseEvent) :
  pan_invariant (onDragMove e s).
Proof.
  destruct (isDragging (dragData s)) eqn:Hd.
  2: rewrite (onDragMove_idle e s Hd); exact inv.
  rewrite (onDragMove_dragging e s Hd).
  destruct inv as [Hw Hh [Hcur _] Hzoom _].
  constructor; try assumption.
  - split; [exact Hcur | split; reflexivity].
  - cbn. rewrite Hcur.
    split; apply clamp_half_abs, oversize_nonneg.
Qed.

Lemma zoomIn_invariant : pan_invariant (zoomIn s).
Proof.
  destruct inv as [Hw Hh [Hcur [Hdx Hdy]] Hzoom [Hpx Hpy]].
  constructor; try assumption.
  - split; [reflexivity | split; assumption].
  - apply clamp_in_range, range_ordered.
  - assert (Hup : zoomLevel s <= zoomLevel (zoomIn s)).
    { apply clamp_step_up; [lra | apply Hzoom]. }
    pose proof (oversize_mono (width (imageData s))
                  (c_width (containerData s)) _ _ Hw Hup) as Hox.
    pose proof (oversize_mono (height (imageData s))
                  (c_height (containerData s)) _ _ Hh Hup) as Hoy.
    split; cbn [zoomIn dragOffset imageData containerData] in *.
    + change (dragOffset (zoomIn s)) with (dragOffset s).
      change (imageData (zoomIn s)) with (imageData s).
      change (containerData (zoomIn s)) with (containerData s).
      halves. lra.
    + change (dragOffset (zoomIn s)) with (dragOffset s).
      change (imageData (zoomIn s)) with (imageData s).
      change (containerData (zoomIn s)) with (containerData s).
      halves. lra.
Qed.

Lemma zoomOut_invariant : pan_invariant (zoomOut s).
Proof.
  destruct inv as [Hw Hh _ Hzoom _].
  constructor; try assumption.
  - split; [reflexivity | split; reflexivity].
  - apply clamp_in_range, range_ordered.
  - split; apply clamp_half_abs, oversize_nonneg.
Qed.

Lemma exec_invariant (o : Op) : pan_invariant (exec o s).
Proof.
  destruct o; cbn [exec].
  - apply onDragStart_invariant.
  - apply onDragMove_invariant.
  - apply onDragEnd_invariant.
  - apply zoomIn_invariant.
  - apply zoomOut_invariant.
  - apply onPinPlace_invariant.
Qed.
End PanInvariant.

Lemma exec_frame (o : Op) (s : state) :
  imageData (exec o s) = imageData s /\
  containerData (exec o s) = containerData s /\
  range_of (exec o s) = range_of s /\
  base_of (exec o s) = base_of s /\
  shouldDisplayModal (exec o s) = shouldDisplayModal s.
Proof.
  destruct o; cbn [exec]; conjuncts; try reflexivity.
  all: try (unfold onDragMove; destruct (isDragging (dragData s));
            reflexivity).
  all: unfold onPinPlace; destruct (imageRef (containerData s));
    reflexivity.
Qed.

Lemma run_invariant (ops : list Op) :
  forall s, pan_invariant s ->
  pan_invariant (run ops s) /\
  imageData (run ops s) = imageData s /\
  containerData (run ops s) = containerData s /\
  range_of (run ops s) = range_of s /\
  base_of (run ops s) = base_of s.
Proof.
  induction ops as [| o ops IH]; intros s Hinv; [now conjuncts |].
  destruct (IH (exec o s) (exec_invariant s Hinv o))
    as (Hrun & Himg & Hcont & Hrange & Hbase).
  destruct (exec_frame o s) as (Himg' & Hcont' & Hrange' & Hbase' & _).
  cbn [run fold_left]. fold (run ops (exec o s)).
  split; [exact Hrun |].
  conjuncts; congruence.
Qed.

Lemma opened_unfold (img : Size) (c i : HTMLDivElement) :
  opened img c i =
  onLoadContainer (Some c)
    (onLoadImage (Some i) (onToggleModal (img_onload img init))).
Proof. reflexivity. Qed.

Lemma opened_invariant (img : Size) (c i : HTMLDivElement) :
  0 < width img -> 0 < height img -> pan_invariant (opened img c i).
Proof.
  intros Hw Hh. rewrite opened_unfold.
  set (s0 := onLoadImage (Some i) (onToggleModal (img_onload img init))).
  assert (Hw0 : 0 < width (imageData s0)) by exact Hw.
  assert (Hh0 : 0 < height (imageData s0)) by exact Hh.
  destruct (range_after_load c s0 Hw0 Hh0) as [Hone Hmax].
  destruct (onLoadContainer_effect c s0)
    as (Himg & _ & _ & _ & _ & Hlvl & Hcur & _ & Hpan & Hdx & Hdy).
  constructor.
  - rewrite Himg. apply Qlt_le_weak, Hw0.
  - rewrite Himg. apply Qlt_le_weak, Hh0.
  - unfold coherent. rewrite Hcur, Hlvl, Hdx, Hdy, Hpan. now conjuncts.
  - unfold zoom_in_range. rewrite Hlvl. split; [apply Qle_refl | exact Hmax].
  - unfold pan_bounded. rewrite Hpan. cbn [px py].
    split; apply Qabs_Qle_condition.
    + pose proof (oversize_nonneg
                    (width (imageData (onLoadContainer (Some c) s0)))
                    (c_width (containerData (onLoadContainer (Some c) s0)))
                    (zoomLevel (onLoadContainer (Some c) s0))).
      halves. lra.
    + pose proof (oversize_nonneg
                    (height (imageData (onLoadContainer (Some c) s0)))
                    (c_height (containerData (onLoadContainer (Some c) s0)))
                    (zoomLevel (onLoadContainer (Some c) s0))).
      halves. lra.
Qed.

(** C2.  Take an image of positive width and height, let it load, and open
    the viewer in any container.  After any sequence of pointer-down,
    pointer-move, pointer-up, zoom-in, zoom-out and double-click commands
    the pan offset is, on each axis, at most half the oversize at the
    current zoom level in absolute value; moreover the zoom level is inside
    the zoom range and the cached copies of the zoom level and of the pan
    offset are equal to them. *)
Theorem pan_within_oversize (img : Size) (c i : HTMLDivElement)
    (ops : list Op) :
  0 < width img -> 0 < height img ->
  let s := run ops (opened img c i) in
  (Qabs (px (dragOffset s)) <=
     Spec.oversize (width img) (clientWidth c) (zoomLevel s) / 2 /\
   Qabs (py (dragOffset s)) <=
     Spec.oversize (height img) (clientHeight c) (zoomLevel s) / 2) /\
  zoom_in_range s /\
  coherent s.
Proof.
  intros Hw Hh s.
  destruct (run_invariant ops (opened img c i) (opened_invariant img c i Hw Hh))
    as (Hinv & Himg & Hcont & _).
  fold s in Hinv, Himg, Hcont.
  destruct Hinv as [_ _ Hcoh Hzoom Hpan].
  split; [| split; assumption].
  unfold pan_bounded in Hpan. rewrite Himg, Hcont in Hpan. exact Hpan.
Qed.

Lemma pan_within_oversize_witness :
  let ops := [ZoomIn; PointerDown; PointerMove (mkMouse 0 0 (-500) 30);
              ZoomOut; PointerUp] in
  let s := run ops (opened (mkSize 2000 1000) (mkDiv 500 500)
                      (mkDiv 2000 1000)) in
  (Qabs (px (dragOffset s)) <=
     Spec.oversize 2000 500 (zoomLevel s) / 2 /\
   Qabs (py (dragOffset s)) <=
     Spec.oversize 1000 500 (zoomLevel s) / 2) /\
  zoom_in_range s /\
  coherent s.
Proof.
  exact (pan_within_oversize (mkSize 2000 1000) (mkDiv 500 500)
           (mkDiv 2000 1000)
           [ZoomIn; PointerDown; PointerMove (mkMouse 0 0 (-500) 30);
            ZoomOut; PointerUp]
           eq_refl eq_refl).
Defined.

(** ** Positive sizes keep every divisor away from zero *)

Lemma init_positive : positive_invariant init.
Proof. constructor; cbn; lra. Qed.

Lemma toggle_positive (c i : HTMLDivElement) (s : state) :
  0 < clientWidth c -> 0 < clientHeight c ->
  positive_invariant s -> positive_invariant (toggle c i s).
Proof.
  intros Hcw Hch [Hw Hh Hmin Hlvl Hcur].
  destruct (shouldDisplayModal s) eqn:Hshown.
  - rewrite (toggle_close c i s Hshown). constructor; assumption.
  - rewrite (toggle_open c i s Hshown).
    set (s0 := onLoadImage (Some i) (onToggleModal s)).
    assert (Hw0 : 0 < width (imageData s0)) by exact Hw.
    assert (Hh0 : 0 < height (imageData s0)) by exact Hh.
    pose proof (min_positive c s0 Hw0 Hh0 Hcw Hch) as Hpos.
    constructor; try assumption; apply Qle_refl.
Qed.

Lemma exec_positive (o : Op) (s : state) :
  positive_invariant s -> positive_invariant (exec o s).
Proof.
  intros Hinv. pose proof Hinv as [Hw Hh Hmin Hlvl Hcur].
  destruct o; cbn [exec].
  - constructor; assumption.
  - unfold onDragMove. destruct (isDragging (dragData s)); [| exact Hinv].
    constructor; assumption.
  - constructor; assumption.
  - constructor; try assumption; apply clamp_lower.
  - constructor; try assumption; apply clamp_lower.
  - unfold onPinPlace. destruct (imageRef (containerData s)); [| exact Hinv].
    constructor; assumption.
Qed.

Lemma dispatch_positive (ev : Event) (s : state) :
  positive_event ev ->
  positive_invariant s -> positive_invariant (dispatch ev s).
Proof.
  destruct ev as [img | c i | o]; cbn [dispatch positive_event].
  - intros [Hw Hh] [_ _ Hmin Hlvl Hcur]. constructor; assumption.
  - intros [Hcw Hch]. apply toggle_positive; assumption.
  - intros _. apply exec_positive.
Qed.

Lemma play_positive (evs : list Event) :
  Forall positive_event evs ->
  forall s, positive_invariant s -> positive_invariant (play evs s).
Proof.
  induction 1 as [| ev evs Hev _ IH]; intros s Hinv; [exact Hinv |].
  cbn [play fold_left]. apply IH, dispatch_positive; assumption.
Qed.

Lemma positive_zoom (s : state) :
  positive_invariant s ->
  0 < zoomLevel s /\ 0 < z_current (zoomData s).
Proof. intros [_ _ Hmin Hlvl Hcur]. split; lra. Qed.

Lemma positive_divisors (ev : Event) (s : state) :
  positive_invariant s -> Forall (fun d => ~ d == 0) (divisors ev s).
Proof.
  intros Hinv. destruct (positive_zoom s Hinv) as [_ Hcur].
  destruct Hinv as [Hw Hh _ _ _].
  assert (Htwo : ~ 2 == 0) by discriminate.
  destruct ev as [img | c i | []]; cbn [divisors]; try constructor.
  - destruct (shouldDisplayModal s); [constructor |].
    apply Forall_app. split; [| repeat constructor; exact Htwo].
    destruct (JS.gt _ _ || JS.gt _ _); repeat constructor;
      now apply positive_not_zero.
  - destruct (isDragging (dragData s)); repeat constructor; exact Htwo.
  - exact Htwo.
  - repeat constructor; exact Htwo.
  - destruct (imageRef (containerData s)); repeat constructor;
      now apply positive_not_zero.
Qed.

Lemma positive_render_divisors (s : state) :
  positive_invariant s -> Forall (fun d => ~ d == 0) (render_divisors s).
Proof.
  intros Hinv. destruct (positive_zoom s Hinv) as [Hlvl _].
  unfold render_divisors.
  destruct (shouldDisplayModal s); repeat constructor.
  now apply positive_not_zero.
Qed.

(** C10.  Start from the values the component is created with (image and
    container 1 x 1) and let any events happen, each image load and each
    opening of the viewer recording positive sizes.  In the state reached
    the zoom level, its cached copy, the minimum of the zoom range and the
    image's width and height are positive; hence the divisors of whatever
    event comes next (the image's width and height in the fit ratios, the
    cached zoom in the pin placement) and the divisor of rendering (the
    zoom level in the marker's inverse scale), before and after that event,
    are all nonzero. *)
Theorem divisors_nonzero (evs : list Event) (ev : Event) :
  Forall positive_event evs -> positive_event ev ->
  let s := play evs init in
  (0 < zoomLevel s /\ 0 < z_current (zoomData s) /\
   0 < z_min (zoomData s) /\
   0 < width (imageData s) /\ 0 < height (imageData s)) /\
  Forall (fun d => ~ d == 0) (divisors ev s) /\
  Forall (fun d => ~ d == 0) (render_divisors s) /\
  Forall (fun d => ~ d == 0) (render_divisors (dispatch ev s)).
Proof.
  intros Hevs Hev s.
  pose proof (play_positive evs Hevs init init_positive) as Hinv.
  fold s in Hinv.
  destruct (positive_zoom s Hinv) as [Hlvl Hcur].
  split; [| split; [| split]].
  - destruct Hinv as [Hw Hh Hmin _ _]. conjuncts; assumption.
  - apply positive_divisors, Hinv.
  - apply positive_render_divisors, Hinv.
  - apply positive_render_divisors, dispatch_positive; assumption.
Qed.

Lemma divisors_nonzero_witness :
  let evs := [ImageLoaded (mkSize 2000 1000);
              Toggle (mkDiv 500 500) (mkDiv 2000 1000);
              Command ZoomIn] in
  let ev := Command (DoubleClick (mkRect 0 0) (mkMouse 100 50 0 0)) in
  let s := play evs init in
  (0 < zoomLevel s /\ 0 < z_current (zoomData s) /\
   0 < z_min (zoomData s) /\
   0 < width (imageData s) /\ 0 < height (imageData s)) /\
  Forall (fun d => ~ d == 0) (divisors ev s) /\
  Forall (fun d => ~ d == 0) (render_divisors s) /\
  Forall (fun d => ~ d == 0) (render_divisors (dispatch ev s)).
Proof.
  intros evs ev.
  assert (Hevs : Forall positive_event evs).
  { unfold evs. repeat constructor. }
  exact (divisors_nonzero evs ev Hevs I).
Defined.

(** * Further properties of the engine *)

(** ** [clamp] *)

(** X1.  Clamping a clamped value again, with the same bounds, changes
    nothing, whatever the order of the bounds. *)
Theorem clamp_idempotent (x lo hi : Q) :
  clamp (clamp x lo hi) lo hi == clamp x lo hi.
Proof.
  assert (Hcases : clamp x lo hi == lo \/
                   (lo <= clamp x lo hi /\ clamp x lo hi <= hi)).
  { split_clamp x lo hi; first [left; lra | right; lra]. }
  generalize dependent (clamp x lo hi). intros c Hc.
  split_clamp c lo hi; destruct Hc as [Hc | [Hc1 Hc2]]; lra.
Qed.

(** X2.  When the bounds are crossed or equal, [clamp] returns the lower
    bound, whatever the value. *)
Theorem clamp_crossed_bounds (x lo hi : Q) :
  hi <= lo -> clamp x lo hi == lo.
Proof.
  intros Hle. split_clamp x lo hi; lra.
Qed.

Lemma clamp_crossed_bounds_witness : clamp 2 5 3 == 5.
Proof.
  apply (clamp_crossed_bounds 2 5 3). discriminate.
Defined.

(** Clamping to an interval symmetric about zero never increases the
    absolute value. *)
Lemma clamp_half_shrinks (x o : Q) :
  0 <= o -> Qabs (clamp x (- o / 2) (o / 2)) <= Qabs x.
Proof.
  intros Ho. apply Qabs_Qle_condition.
  pose proof (Qle_Qabs x) as Hpos.
  pose proof (Qle_Qabs (- x)) as Hneg. rewrite Qabs_opp in Hneg.
  generalize dependent (Qabs x). intros a Hpos Hneg.
  split_clamp x (- o / 2) (o / 2); halves; lra.
Qed.

(** ** The fit zoom *)

Lemma min_fits (r : HTMLDivElement) (s : state) :
  0 < width (imageData s) -> 0 < height (imageData s) ->
  width (imageData s) * z_min (zoomData (onLoadContainer (Some r) s))
    <= clientWidth r /\
  height (imageData s) * z_min (zoomData (onLoadContainer (Some r) s))
    <= clientHeight r.
Proof.
  intros Hw Hh.
  set (iw := width (imageData s)) in *. set (ih := height (imageData s)) in *.
  set (cw := clientWidth r). set (ch := clientHeight r).
  assert (Hrw : iw * (cw / iw) == cw) by (field; lra).
  assert (Hrh : ih * (ch / ih) == ch) by (field; lra).
  destruct (Qlt_le_dec cw iw) as [Hcw | Hcw];
    [| destruct (Qlt_le_dec ch ih) as [Hch | Hch]].
  3: rewrite (min_when_fits r s Hcw Hch); split; lra.
  all: rewrite (min_when_larger r s) by (now left + now right).
  all: fold iw ih cw ch; split.
  - rewrite <- Hrw at 2. apply Qmult_le_l; [exact Hw | apply Q.le_min_l].
  - rewrite <- Hrh at 2. apply Qmult_le_l; [exact Hh | apply Q.le_min_r].
  - rewrite <- Hrw at 2. apply Qmult_le_l; [exact Hw | apply Q.le_min_l].
  - rewrite <- Hrh at 2. apply Qmult_le_l; [exact Hh | apply Q.le_min_r].
Qed.




(** X4.  Over exact arithmetic, in a session opened on a loaded image of
    positive size, whenever the zoom level is the minimum of the range the
    pan offset is zero on both axes: at the fit zoom no drag moves the
    image, and zooming out to the fit zoom recentres it.  (With the
    source's doubles the oversize at the fit zoom can be a rounding error
    above zero, see X3, and the pan offset can then be as much as half of
    it.) *)
Theorem no_pan_at_fit_zoom (img : Size) (c i : HTMLDivElement)
    (ops : list Op) :
  0 < width img -> 0 < height img ->
  let s := run ops (opened img c i) in
  zoomLevel s == z_min (zoomData s) ->
  px (dragOffset s) == 0 /\ py (dragOffset s) == 0.
Proof.
  intros Hw Hh s Hfit.
  destruct (run_invariant ops (opened img c i) (opened_invariant img c i Hw Hh))
    as (Hinv & Himg & Hcont & Hrange & _).
  fold s in Hinv, Himg, Hcont, Hrange.
  assert (Hmin : z_min (zoomData s) = z_min (zoomData (opened img c i)))
    by exact (f_equal Spec.min Hrange).
  rewrite Hmin in Hfit.
  destruct Hinv as [_ _ _ _ [Hpx Hpy]].
  rewrite Himg, Hcont in Hpx, Hpy.
  rewrite opened_unfold in Hfit, Hpx, Hpy.
  set (s0 := onLoadImage (Some i) (onToggleModal (img_onload img init))) in *.
  destruct (min_fits c s0 Hw Hh) as [Hfw Hfh].
  change (imageData (onLoadContainer (Some c) s0)) with (imageData s0)
    in Hpx, Hpy.
  change (c_width (containerData (onLoadContainer (Some c) s0)))
    with (clientWidth c) in Hpx.
  change (c_height (containerData (onLoadContainer (Some c) s0)))
    with (clientHeight c) in Hpy.
  unfold Spec.oversize in Hpx, Hpy. rewrite Hfit in Hpx, Hpy.
  apply Qabs_Qle_condition in Hpx, Hpy.
  rewrite Q.max_r in Hpx by lra. rewrite Q.max_r in Hpy by lra.
  halves. split; lra.
Qed.

Lemma no_pan_at_fit_zoom_witness :
  let s := run [ZoomIn; PointerDown; PointerMove (mkMouse 0 0 (-500) 30);
                ZoomOut]
             (opened (mkSize 2000 1000) (mkDiv 500 500) (mkDiv 2000 1000)) in
  px (dragOffset s) == 0 /\ py (dragOffset s) == 0.
Proof.
  intros s.
  assert (Hfit : zoomLevel s == z_min (zoomData s)) by evaluate.
  exact (no_pan_at_fit_zoom (mkSize 2000 1000) (mkDiv 500 500)
           (mkDiv 2000 1000)
           [ZoomIn; PointerDown; PointerMove (mkMouse 0 0 (-500) 30); ZoomOut]
           eq_refl eq_refl Hfit).
Defined.

(** ** Zoom steps and the pan offset *)

(** X5.  [zoomOut] never moves the pan offset away from the centre: on
    each axis its absolute value does not grow, in any state; [zoomIn]
    leaves the pan offset as it is. *)
Theorem zoom_keeps_pan_inward (s : state) :
  Qabs (px (dragOffset (zoomOut s))) <= Qabs (px (dragOffset s)) /\
  Qabs (py (dragOffset (zoomOut s))) <= Qabs (py (dragOffset s)) /\
  dragOffset (zoomIn s) = dragOffset s.
Proof.
  split; [| split; [| reflexivity]].
  - apply clamp_half_shrinks, Q.le_max_r.
  - apply clamp_half_shrinks, Q.le_max_r.
Qed.

Lemma tenths_succ (n : nat) : tenths (S n) == tenths n + (1 # 10).
Proof.
  unfold tenths. rewrite Nat2Z.inj_succ. unfold Z.succ.
  rewrite inject_Z_plus. ring.
Qed.

Lemma tenths_nonneg (n : nat) : 0 <= tenths n.
Proof.
  unfold tenths. apply Qmult_le_0_compat; [| discriminate].
  change 0 with (inject_Z 0). rewrite <- Zle_Qle. apply Nat2Z.is_nonneg.
Qed.

Lemma iter_zoomIn_range (n : nat) (s : state) :
  range_of (Nat.iter n zoomIn s) = range_of s.
Proof. induction n as [| n IH]; [reflexivity | exact IH]. Qed.

Lemma iter_zoomOut_range (n : nat) (s : state) :
  range_of (Nat.iter n zoomOut s) = range_of s.
Proof. induction n as [| n IH]; [reflexivity | exact IH]. Qed.

(** X6.  From a zoom level inside the range, [n] clicks on [+] lead to the
    smaller of the level plus [n] tenths and the maximum, and [n] clicks on
    [-] to the larger of the level minus [n] tenths and the minimum. *)
Theorem repeated_zoom (n : nat) (s : state) :
  zoom_in_range s ->
  zoomLevel (Nat.iter n zoomIn s) ==
    Qmin (zoomLevel s + tenths n) (z_max (zoomData s)) /\
  zoomLevel (Nat.iter n zoomOut s) ==
    Qmax (zoomLevel s - tenths n) (z_min (zoomData s)).
Proof.
  intros [Hlo Hhi]. split.
  - induction n as [| n IH].
    + change (Nat.iter 0 zoomIn s) with s.
      assert (H0 : tenths 0 == 0) by reflexivity.
      rewrite H0. rewrite Q.min_l; lra.
    + pose proof (f_equal Spec.min (iter_zoomIn_range n s)) as Hmin.
      pose proof (f_equal Spec.max (iter_zoomIn_range n s)) as Hmax.
      cbn [range_of Spec.min Spec.max] in Hmin, Hmax.
      rewrite Nat.iter_succ. unfold zoomIn at 1.
      cbn [zoomLevel setZoomLevel].
      rewrite Hmin, Hmax.
      pose proof (tenths_succ n) as Hs. pose proof (tenths_nonneg n) as Hn.
      revert IH Hs Hn.
      generalize (zoomLevel (Nat.iter n zoomIn s)) (tenths (S n)) (tenths n).
      intros zt tS tn IH Hs Hn. revert IH.
      split_min (zoomLevel s + tn) (z_max (zoomData s));
        split_min (zoomLevel s + tS) (z_max (zoomData s));
        intros IH;
        split_clamp (zt + (1 # 10)) (z_min (zoomData s)) (z_max (zoomData s));
        lra.
  - induction n as [| n IH].
    + change (Nat.iter 0 zoomOut s) with s.
      assert (H0 : tenths 0 == 0) by reflexivity.
      rewrite H0. rewrite Q.max_l; lra.
    + pose proof (f_equal Spec.min (iter_zoomOut_range n s)) as Hmin.
      pose proof (f_equal Spec.max (iter_zoomOut_range n s)) as Hmax.
      cbn [range_of Spec.min Spec.max] in Hmin, Hmax.
      rewrite Nat.iter_succ. unfold zoomOut at 1.
      cbn [zoomLevel setZoomLevel].
      rewrite Hmin, Hmax.
      pose proof (tenths_succ n) as Hs. pose proof (tenths_nonneg n) as Hn.
      revert IH Hs Hn.
      generalize (zoomLevel (Nat.iter n zoomOut s)) (tenths (S n)) (tenths n).
      intros zt tS tn IH Hs Hn. revert IH.
      split_max (zoomLevel s - tn) (z_min (zoomData s));
        split_max (zoomLevel s - tS) (z_min (zoomData s));
        intros IH;
        split_clamp (zt - (1 # 10)) (z_min (zoomData s)) (z_max (zoomData s));
        lra.
Qed.

Lemma repeated_zoom_witness :
  let s := opened (mkSize 2000 1000) (mkDiv 500 500) (mkDiv 2000 1000) in
  zoomLevel (Nat.iter 30 zoomIn s) == 3 /\
  zoomLevel (Nat.iter 4 zoomIn s) == 65 # 100 /\
  zoomLevel (Nat.iter 30 zoomOut (Nat.iter 4 zoomIn s)) == 1 # 4.
Proof.
  intros s.
  assert (Hin : zoom_in_range s) by (split; evaluate).
  assert (Hin4 : zoom_in_range (Nat.iter 4 zoomIn s)) by (split; evaluate).
  destruct (repeated_zoom 30 s Hin) as [H30 _].
  destruct (repeated_zoom 4 s Hin) as [H4 _].
  destruct (repeated_zoom 30 (Nat.iter 4 zoomIn s) Hin4) as [_ Hout].
  rewrite H30, H4, Hout. conjuncts; evaluate.
Defined.

(** X7.  In a state that satisfies the pan invariant and leaves room for
    one more step below the maximum, zooming in and then out restores the
    zoom level and the pan offset. *)
Theorem zoom_in_then_out (s : state) :
  pan_invariant s ->
  zoomLevel s + (1 # 10) <= z_max (zoomData s) ->
  let s' := zoomOut (zoomIn s) in
  zoomLevel s' == zoomLevel s /\
  px (dragOffset s') == px (dragOffset s) /\
  py (dragOffset s') == py (dragOffset s).
Proof.
  intros [Hw Hh _ [Hlo Hhi] [Hpx Hpy]] Hroom s'.
  assert (Hin : zoomLevel (zoomIn s) == zoomLevel s + (1 # 10)).
  { apply clamp_inside. split; lra. }
  assert (Hout : zoomLevel s' == zoomLevel s).
  { unfold s', zoomOut. cbn [zoomLevel setZoomLevel].
    change (z_min (zoomData (zoomIn s))) with (z_min (zoomData s)).
    change (z_max (zoomData (zoomIn s))) with (z_max (zoomData s)).
    rewrite clamp_inside; lra. }
  split; [exact Hout |].
  apply Qabs_Qle_condition in Hpx, Hpy. unfold Spec.oversize in Hpx, Hpy.
  assert (Hox : Qmax (width (imageData s) * zoomLevel s'
                      - c_width (containerData s)) 0 ==
                Qmax (width (imageData s) * zoomLevel s
                      - c_width (containerData s)) 0)
    by (rewrite Hout; reflexivity).
  assert (Hoy : Qmax (height (imageData s) * zoomLevel s'
                      - c_height (containerData s)) 0 ==
                Qmax (height (imageData s) * zoomLevel s
                      - c_height (containerData s)) 0)
    by (rewrite Hout; reflexivity).
  split.
  - change (px (dragOffset s')) with
      (clamp (px (dragOffset s))
         (- Qmax (width (imageData s) * zoomLevel s'
                  - c_width (containerData s)) 0 / 2)
         (Qmax (width (imageData s) * zoomLevel s'
                - c_width (containerData s)) 0 / 2)).
    apply clamp_inside. rewrite Hox. halves. lra.
  - change (py (dragOffset s')) with
      (clamp (py (dragOffset s))
         (- Qmax (height (imageData s) * zoomLevel s'
                  - c_height (containerData s)) 0 / 2)
         (Qmax (height (imageData s) * zoomLevel s'
                - c_height (containerData s)) 0 / 2)).
    apply clamp_inside. rewrite Hoy. halves. lra.
Qed.

Lemma zoom_in_then_out_witness :
  let s := run [ZoomIn; PointerDown; PointerMove (mkMouse 0 0 (-40) 0)]
             (opened (mkSize 2000 1000) (mkDiv 500 500) (mkDiv 2000 1000)) in
  let s' := zoomOut (zoomIn s) in
  zoomLevel s' == zoomLevel s /\
  px (dragOffset s') == px (dragOffset s) /\
  py (dragOffset s') == py (dragOffset s).
Proof.
  intros s.
  assert (Hinv : pan_invariant s).
  { apply run_invariant, opened_invariant; reflexivity. }
  assert (Hroom : zoomLevel s + (1 # 10) <= z_max (zoomData s)) by evaluate.
  exact (zoom_in_then_out s Hinv Hroom).
Defined.

(** ** Dragging *)

(** X8.  While dragging, on each axis the pan offset follows the pointer
    exactly as long as the offset asked for stays within half the oversize
    at the cached zoom, and stops at the bound it would cross otherwise. *)
Theorem drag_follows_or_stops (e : MouseEvent) (s : state) :
  isDragging (dragData s) = true ->
  let s' := onDragMove e s in
  let ox := Spec.oversize (width (imageData s)) (c_width (containerData s))
              (z_current (zoomData s)) in
  let oy := Spec.oversize (height (imageData s)) (c_height (containerData s))
              (z_current (zoomData s)) in
  let tx := px (dragOffset s) - movementX e in
  let ty := py (dragOffset s) - movementY e in
  (Qabs tx <= ox / 2 -> px (dragOffset s') == tx) /\
  (ox / 2 <= tx -> px (dragOffset s') == ox / 2) /\
  (tx <= - ox / 2 -> px (dragOffset s') == - ox / 2) /\
  (Qabs ty <= oy / 2 -> py (dragOffset s') == ty) /\
  (oy / 2 <= ty -> py (dragOffset s') == oy / 2) /\
  (ty <= - oy / 2 -> py (dragOffset s') == - oy / 2).
Proof.
  intros Hd s' ox oy tx ty.
  assert (Hx : px (dragOffset s') = clamp tx (- ox / 2) (ox / 2)).
  { unfold s'. rewrite (onDragMove_dragging e s Hd). reflexivity. }
  assert (Hy : py (dragOffset s') = clamp ty (- oy / 2) (oy / 2)).
  { unfold s'. rewrite (onDragMove_dragging e s Hd). reflexivity. }
  rewrite Hx, Hy.
  pose proof (oversize_nonneg (width (imageData s))
                (c_width (containerData s)) (z_current (zoomData s))) as Hox.
  pose proof (oversize_nonneg (height (imageData s))
                (c_height (containerData s)) (z_current (zoomData s))) as Hoy.
  fold ox in Hox. fold oy in Hoy.
  generalize dependent ox. generalize dependent oy.
  generalize dependent tx. generalize dependent ty.
  intros ty tx oy _ Hoy ox _ Hox.
  conjuncts.
  - intros H. apply Qabs_Qle_condition in H.
    apply clamp_inside. halves. lra.
  - intros H. split_clamp tx (- ox / 2) (ox / 2); halves; lra.
  - intros H. split_clamp tx (- ox / 2) (ox / 2); halves; lra.
  - intros H. apply Qabs_Qle_condition in H.
    apply clamp_inside. halves. lra.
  - intros H. split_clamp ty (- oy / 2) (oy / 2); halves; lra.
  - intros H. split_clamp ty (- oy / 2) (oy / 2); halves; lra.
Qed.

Lemma drag_follows_or_stops_witness :
  let s := run [ZoomIn; PointerDown]
             (opened (mkSize 2000 1000) (mkDiv 500 500) (mkDiv 2000 1000)) in
  px (dragOffset (onDragMove (mkMouse 0 0 (-40) 0) s)) == 40 /\
  px (dragOffset (onDragMove (mkMouse 0 0 (-400) 0) s)) == 100 /\
  px (dragOffset (onDragMove (mkMouse 0 0 400 0) s)) == - (100).
Proof.
  intros s.
  destruct (drag_follows_or_stops (mkMouse 0 0 (-40) 0) s eq_refl)
    as (Hin & _).
  destruct (drag_follows_or_stops (mkMouse 0 0 (-400) 0) s eq_refl)
    as (_ & Hhigh & _).
  destruct (drag_follows_or_stops (mkMouse 0 0 400 0) s eq_refl)
    as (_ & _ & Hlow & _).
  rewrite Hin by evaluate. rewrite Hhigh by evaluate.
  rewrite Hlow by evaluate.
  conjuncts; evaluate.
Defined.

(** ** Sessions with any events *)

Lemma exec_coherent (o : Op) (s : state) :
  coherent s -> coherent (exec o s).
Proof.
  unfold coherent. intros (Hcur & Hdx & Hdy). destruct o; cbn [exec].
  - conjuncts; assumption.
  - unfold onDragMove. destruct (isDragging (dragData s)).
    + conjuncts; [exact Hcur | reflexivity | reflexivity].
    + conjuncts; assumption.
  - conjuncts; assumption.
  - conjuncts; [reflexivity | exact Hdx | exact Hdy].
  - conjuncts; reflexivity.
  - unfold onPinPlace. destruct (imageRef (containerData s));
      conjuncts; assumption.
Qed.

Lemma toggle_coherent (c i : HTMLDivElement) (s : state) :
  coherent s -> coherent (toggle c i s).
Proof.
  unfold coherent. intros (Hcur & Hdx & Hdy).
  destruct (shouldDisplayModal s) eqn:Hshown.
  - rewrite (toggle_close c i s Hshown). conjuncts; assumption.
  - rewrite (toggle_open c i s Hshown). conjuncts; reflexivity.
Qed.

Lemma dispatch_coherent (ev : Event) (s : state) :
  coherent s -> coherent (dispatch ev s).
Proof.
  destruct ev as [img | c i | o]; cbn [dispatch].
  - intros H. exact H.
  - apply toggle_coherent.
  - apply exec_coherent.
Qed.

(** X9.  Whatever happens to the component, in whatever order, the cached
    zoom in [zoomDataRef] equals the zoom level state and the cached drag
    offset in [offsetDataRef] equals the drag offset state. *)
Theorem caches_agree (evs : list Event) : coherent (play evs init).
Proof.
  assert (Hgen : forall s, coherent s -> coherent (play evs s)).
  { induction evs as [| ev evs IH]; intros s Hs; [exact Hs |].
    cbn [play fold_left]. apply IH, dispatch_coherent, Hs. }
  apply Hgen. unfold coherent. conjuncts; reflexivity.
Qed.

Lemma init_range : range_invariant init.
Proof. constructor; cbn; try reflexivity; try lra. split; cbn; lra. Qed.

Lemma exec_range (o : Op) (s : state) :
  range_invariant s -> range_invariant (exec o s).
Proof.
  intros Hinv. pose proof Hinv as [Hw Hh Hmin Hmax [Hlo Hhi]].
  assert (Hord : z_min (zoomData s) <= z_max (zoomData s)) by lra.
  destruct o; cbn [exec].
  - constructor; try assumption. split; assumption.
  - unfold onDragMove. destruct (isDragging (dragData s)); [| exact Hinv].
    constructor; try assumption. split; assumption.
  - constructor; try assumption. split; assumption.
  - constructor; try assumption. apply clamp_in_range, Hord.
  - constructor; try assumption. apply clamp_in_range, Hord.
  - unfold onPinPlace. destruct (imageRef (containerData s)); [| exact Hinv].
    constructor; try assumption. split; assumption.
Qed.

Lemma toggle_range (c i : HTMLDivElement) (s : state) :
  range_invariant s -> range_invariant (toggle c i s).
Proof.
  intros [Hw Hh Hmin Hmax [Hlo Hhi]].
  destruct (shouldDisplayModal s) eqn:Hshown.
  - rewrite (toggle_close c i s Hshown).
    constructor; try assumption. split; assumption.
  - rewrite (toggle_open c i s Hshown).
    set (s0 := onLoadImage (Some i) (onToggleModal s)).
    assert (Hw0 : 0 < width (imageData s0)) by exact Hw.
    assert (Hh0 : 0 < height (imageData s0)) by exact Hh.
    destruct (range_after_load c s0 Hw0 Hh0) as [Hone Hord].
    constructor; try assumption; try reflexivity.
    split; [apply Qle_refl | exact Hord].
Qed.

Lemma dispatch_range (ev : Event) (s : state) :
  positive_image ev -> range_invariant s -> range_invariant (dispatch ev s).
Proof.
  destruct ev as [img | c i | o]; cbn [dispatch positive_image].
  - intros [Hw Hh] [_ _ Hmin Hmax Hzoom]. constructor; assumption.
  - intros _. apply toggle_range.
  - intros _. apply exec_range.
Qed.

(** X10.  In every session whose image loads record positive sizes,
    whatever the order of the events and the sizes of the containers, the
    zoom level is inside the zoom range, the maximum of the range is 3 and
    its minimum is at most 1. *)
Theorem session_zoom_range (evs : list Event) :
  Forall positive_image evs ->
  let s := play evs init in
  z_min (zoomData s) <= zoomLevel s <= z_max (zoomData s) /\
  z_max (zoomData s) = 3 /\
  z_min (zoomData s) <= 1.
Proof.
  intros Hevs s.
  assert (Hgen : forall s0, range_invariant s0 ->
                            range_invariant (play evs s0)).
  { clear s. induction Hevs as [| ev evs Hev _ IH]; intros s0 Hs0;
      [exact Hs0 |].
    cbn [play fold_left]. apply IH, dispatch_range; assumption. }
  destruct (Hgen init init_range) as [_ _ Hmin Hmax Hzoom].
  conjuncts; try assumption; apply Hzoom.
Qed.

Lemma session_zoom_range_witness :
  let s := play [Toggle (mkDiv 500 500) (mkDiv 1 1);
                 ImageLoaded (mkSize 2000 1000);
                 Command ZoomIn;
                 Toggle (mkDiv 500 500) (mkDiv 2000 1000);
                 Toggle (mkDiv 0 300) (mkDiv 2000 1000);
                 Command ZoomOut] init in
  z_min (zoomData s) <= zoomLevel s <= z_max (zoomData s) /\
  z_max (zoomData s) = 3 /\
  z_min (zoomData s) <= 1.
Proof.
  apply (session_zoom_range
           [Toggle (mkDiv 500 500) (mkDiv 1 1);
            ImageLoaded (mkSize 2000 1000);
            Command ZoomIn;
            Toggle (mkDiv 500 500) (mkDiv 2000 1000);
            Toggle (mkDiv 0 300) (mkDiv 2000 1000);
            Command ZoomOut]).
  repeat constructor.
Defined.

(** ** Sessions with closing and reopening *)

Lemma onLoadContainer_invariant (c : HTMLDivElement) (s0 : state) :
  0 < width (imageData s0) -> 0 < height (imageData s0) ->
  pan_invariant (onLoadContainer (Some c) s0).
Proof.
  intros Hw0 Hh0.
  destruct (range_after_load c s0 Hw0 Hh0) as [Hone Hmax].
  destruct (onLoadContainer_effect c s0)
    as (Himg & _ & _ & _ & _ & Hlvl & Hcur & _ & Hpan & Hdx & Hdy).
  constructor.
  - rewrite Himg. apply Qlt_le_weak, Hw0.
  - rewrite Himg. apply Qlt_le_weak, Hh0.
  - unfold coherent. rewrite Hcur, Hlvl, Hdx, Hdy, Hpan. now conjuncts.
  - unfold zoom_in_range. rewrite Hlvl. split; [apply Qle_refl | exact Hmax].
  - unfold pan_bounded. rewrite Hpan. cbn [px py].
    split; apply Qabs_Qle_condition.
    + pose proof (oversize_nonneg
                    (width (imageData (onLoadContainer (Some c) s0)))
                    (c_width (containerData (onLoadContainer (Some c) s0)))
                    (zoomLevel (onLoadContainer (Some c) s0))).
      halves. lra.
    + pose proof (oversize_nonneg
                    (height (imageData (onLoadContainer (Some c) s0)))
                    (c_height (containerData (onLoadContainer (Some c) s0)))
                    (zoomLevel (onLoadContainer (Some c) s0))).
      halves. lra.
Qed.

Lemma toggle_invariant (c i : HTMLDivElement) (s : state) :
  0 < width (imageData s) -> 0 < height (imageData s) ->
  pan_invariant s -> pan_invariant (toggle c i s).
Proof.
  intros Hw Hh Hinv.
  destruct (shouldDisplayModal s) eqn:Hshown.
  - rewrite (toggle_close c i s Hshown).
    destruct Hinv. constructor; assumption.
  - rewrite (toggle_open c i s Hshown).
    apply onLoadContainer_invariant; assumption.
Qed.

Lemma toggle_image (c i : HTMLDivElement) (s : state) :
  imageData (toggle c i s) = imageData s.
Proof.
  unfold toggle. cbn. destruct (shouldDisplayModal s); reflexivity.
Qed.

Lemma play_invariant (evs : list Event) :
  no_image_load evs = true ->
  forall s,
    0 < width (imageData s) -> 0 < height (imageData s) ->
    pan_invariant s ->
    pan_invariant (play evs s) /\ imageData (play evs s) = imageData s.
Proof.
  induction evs as [| ev evs IH]; intros Hno s Hw Hh Hinv; [now split |].
  cbn [no_image_load forallb] in Hno.
  apply andb_true_iff in Hno as [Hev Hrest]. apply negb_true_iff in Hev.
  assert (Hstep : pan_invariant (dispatch ev s) /\
                  imageData (dispatch ev s) = imageData s).
  { destruct ev as [img | c i | o]; cbn [dispatch]; [discriminate | |].
    - split; [apply toggle_invariant; assumption | apply toggle_image].
    - split; [apply exec_invariant, Hinv | apply exec_frame]. }
  destruct Hstep as [Hinv' Himg'].
  cbn [play fold_left]. fold (play evs (dispatch ev s)).
  destruct (IH Hrest (dispatch ev s)) as [Hfin Himg];
    try (rewrite Himg'; assumption); [exact Hinv' |].
  split; [exact Hfin | congruence].
Qed.

(** X11.  Once an image of positive size has loaded, any sequence of
    openings, closings and commands (with containers of any sizes, and no
    further image load) keeps the pan offset within half the oversize at
    the current zoom level, for the container recorded last. *)
Theorem pan_bounded_across_reopenings (img : Size) (evs : list Event) :
  0 < width img -> 0 < height img ->
  no_image_load evs = true ->
  let s := play evs (img_onload img init) in
  width (imageData s) = width img /\ height (imageData s) = height img /\
  Qabs (px (dragOffset s)) <=
    Spec.oversize (width img) (c_width (containerData s)) (zoomLevel s) / 2 /\
  Qabs (py (dragOffset s)) <=
    Spec.oversize (height img) (c_height (containerData s)) (zoomLevel s) / 2.
Proof.
  intros Hw Hh Hno s.
  assert (Hinit : pan_invariant (img_onload img init)).
  { constructor; cbn; try lra.
    - unfold coherent. now conjuncts.
    - split; cbn; lra.
    - split; apply Qabs_Qle_condition.
      + pose proof (oversize_nonneg (width img) 1 1). cbn. halves. lra.
      + pose proof (oversize_nonneg (height img) 1 1). cbn. halves. lra. }
  destruct (play_invariant evs Hno (img_onload img init) Hw Hh Hinit)
    as [[_ _ _ _ [Hpx Hpy]] Himg].
  fold s in Hpx, Hpy, Himg. rewrite Himg in Hpx, Hpy.
  split; [rewrite Himg; reflexivity |].
  split; [rewrite Himg; reflexivity |].
  split; assumption.
Qed.

Lemma pan_bounded_across_reopenings_witness :
  let s := play [Toggle (mkDiv 500 500) (mkDiv 2000 1000);
                 Command ZoomIn; Command PointerDown;
                 Command (PointerMove (mkMouse 0 0 (-500) 30));
                 Toggle (mkDiv 500 500) (mkDiv 2000 1000);
                 Toggle (mkDiv 800 300) (mkDiv 2000 1000);
                 Command (PointerMove (mkMouse 0 0 50 50))]
             (img_onload (mkSize 2000 1000) init) in
  Qabs (px (dragOffset s)) <=
    Spec.oversize 2000 (c_width (containerData s)) (zoomLevel s) / 2 /\
  Qabs (py (dragOffset s)) <=
    Spec.oversize 1000 (c_height (containerData s)) (zoomLevel s) / 2.
Proof.
  exact (proj2 (proj2
    (pan_bounded_across_reopenings (mkSize 2000 1000)
       [Toggle (mkDiv 500 500) (mkDiv 2000 1000);
        Command ZoomIn; Command PointerDown;
        Command (PointerMove (mkMouse 0 0 (-500) 30));
        Toggle (mkDiv 500 500) (mkDiv 2000 1000);
        Toggle (mkDiv 800 300) (mkDiv 2000 1000);
        Command (PointerMove (mkMouse 0 0 50 50))]
       eq_refl eq_refl eq_refl))).
Defined.

(** ** The pin stays on the image *)

Lemma onPinPlace_at_point (layout o p : Point) (el : HTMLDivElement)
    (s : state) :
  imageRef (containerData s) = Some el ->
  z_current (zoomData s) = zoomLevel s ->
  0 <= width (imageData s) -> 0 <= height (imageData s) ->
  0 < zoomLevel s ->
  let tr := image_transform s in
  let s' := onPinPlace
              (fun _ => Browser.getBoundingClientRect layout o (imageData s) tr)
              (Browser.click_at (Browser.toScreen layout o tr p)) s in
  px (pin s') == px p /\ py (pin s') == py p.
Proof.
  intros Href Hcur Hw Hh Hz tr s'.
  destruct (toScreen_from_box layout o (imageData s) tr p Hw Hh Hz)
    as [Hx Hy].
  assert (Hnz : ~ zoomLevel s == 0) by (apply positive_not_zero, Hz).
  unfold s', onPinPlace. rewrite Href, Hcur. cbn [pin setPin px py].
  cbn [Browser.click_at clientX clientY]. split.
  - rewrite Hx. change (scale tr) with (zoomLevel s). now field.
  - rewrite Hy. change (scale tr) with (zoomLevel s). now field.
Qed.

Lemma toScreen_compat (layout o : Point) (tr : Transform) (p q : Point) :
  px p == px q -> py p == py q ->
  px (Browser.toScreen layout o tr p) == px (Browser.toScreen layout o tr q)
  /\
  py (Browser.toScreen layout o tr p) == py (Browser.toScreen layout o tr q).
Proof. intros Hx Hy. cbn. rewrite Hx, Hy. split; reflexivity. Qed.

(** X12.  Place a pin by a double-click on the screen position of the
    image point [p], at a positive zoom level.  After any later events that
    are not double-clicks (zoom steps, drags, closing and reopening, image
    loads) the marker is still rendered at [p] in the image's own
    coordinates, so that under the transform of the moment, the marker is
    shown where [p] is shown; and the marker's own scale undoes the image's
    scale whenever the zoom level is not zero. *)
Theorem pin_stays_anchored (layout o layout' o' p : Point)
    (el : HTMLDivElement) (s : state) (evs : list Event) :
  imageRef (containerData s) = Some el ->
  z_current (zoomData s) = zoomLevel s ->
  0 <= width (imageData s) -> 0 <= height (imageData s) ->
  0 < zoomLevel s ->
  no_placement evs = true ->
  let tr := image_transform s in
  let placed := onPinPlace
                  (fun _ => Browser.getBoundingClientRect layout o
                              (imageData s) tr)
                  (Browser.click_at (Browser.toScreen layout o tr p)) s in
  let later := play evs placed in
  let m := pin_marker later in
  let shown := Browser.toScreen layout' o' (image_transform later) in
  (m_left m == px p /\ m_top m == py p) /\
  (px (shown (mkPoint (m_left m) (m_top m))) == px (shown p) /\
   py (shown (mkPoint (m_left m) (m_top m))) == py (shown p)) /\
  (~ zoomLevel later == 0 ->
   m_scale m * scale (image_transform later) == 1).
Proof.
  intros Href Hcur Hw Hh Hz Hno tr placed later m shown.
  destruct (onPinPlace_at_point layout o p el s Href Hcur Hw Hh Hz)
    as [Hx Hy].
  fold tr in Hx, Hy. fold placed in Hx, Hy.
  assert (Hpin : pin later = pin placed) by (apply play_keeps_pin, Hno).
  assert (Hm : m_left m == px p /\ m_top m == py p).
  { unfold m, pin_marker. cbn [m_left m_top]. rewrite Hpin. now split. }
  split; [exact Hm |]. split.
  - apply toScreen_compat; apply Hm.
  - intros Hnz. unfold m, pin_marker, image_transform.
    cbn [m_scale scale]. now field.
Qed.

Lemma pin_stays_anchored_witness :
  let s := opened (mkSize 2000 1000) (mkDiv 500 500) (mkDiv 2000 1000) in
  let layout := mkPoint 30 40 in
  let o := mkPoint 1000 500 in
  let p := mkPoint 120 80 in
  let placed := onPinPlace
                  (fun _ => Browser.getBoundingClientRect layout o
                              (imageData s) (image_transform s))
                  (Browser.click_at
                     (Browser.toScreen layout o (image_transform s) p)) s in
  let later := play [Command ZoomIn; Command ZoomIn; Command PointerDown;
                     Command (PointerMove (mkMouse 0 0 (-60) 10));
                     Toggle (mkDiv 500 500) (mkDiv 2000 1000);
                     Toggle (mkDiv 700 700) (mkDiv 2000 1000)] placed in
  m_left (pin_marker later) == 120 /\ m_top (pin_marker later) == 80.
Proof.
  intros s layout o p placed later.
  assert (Hw : 0 <= width (imageData s)) by evaluate.
  assert (Hh : 0 <= height (imageData s)) by evaluate.
  assert (Hz : 0 < zoomLevel s) by evaluate.
  exact (proj1 (pin_stays_anchored layout o layout o p (mkDiv 2000 1000) s
                  [Command ZoomIn; Command ZoomIn; Command PointerDown;
                   Command (PointerMove (mkMouse 0 0 (-60) 10));
                   Toggle (mkDiv 500 500) (mkDiv 2000 1000);
                   Toggle (mkDiv 700 700) (mkDiv 2000 1000)]
                  eq_refl eq_refl Hw Hh Hz eq_refl)).
Defined.

(** ** The image handle *)

Lemma exec_handle (o : Op) (s : state) :
  imageRef (containerData (exec o s)) = imageRef (containerData s).
Proof.
  destruct (exec_frame o s) as (_ & Hcont & _). rewrite Hcont. reflexivity.
Qed.

Lemma exec_without_handle (o : Op) (s : state) :
  imageRef (containerData s) = None -> pin (exec o s) = pin s.
Proof.
  intros Href. destruct o; cbn [exec]; try reflexivity.
  - unfold onDragMove. destruct (isDragging (dragData s)); reflexivity.
  - unfold onPinPlace. rewrite Href. reflexivity.
Qed.

(** X13.  Until the viewer is opened for the first time there is no image
    handle, so whatever commands and image loads arrive (double-clicks
    among them) the pin stays (0, 0) and the viewer stays closed. *)
Theorem no_handle_before_opening (evs : list Event) :
  no_toggle evs = true ->
  let s := play evs init in
  imageRef (containerData s) = None /\
  pin s = mkPoint 0 0 /\
  shouldDisplayModal s = false.
Proof.
  intros Hno s.
  assert (Hgen : forall s0,
             imageRef (containerData s0) = None ->
             imageRef (containerData (play evs s0)) = None /\
             pin (play evs s0) = pin s0 /\
             shouldDisplayModal (play evs s0) = shouldDisplayModal s0).
  { clear s. induction evs as [| ev evs IH]; intros s0 Href; [now conjuncts |].
    cbn [no_toggle forallb] in Hno.
    apply andb_true_iff in Hno as [Hev Hrest]. apply negb_true_iff in Hev.
    assert (Hstep : imageRef (containerData (dispatch ev s0)) = None /\
                    pin (dispatch ev s0) = pin s0 /\
                    shouldDisplayModal (dispatch ev s0) =
                      shouldDisplayModal s0).
    { destruct ev as [img | c i | o]; cbn [dispatch];
        [now conjuncts | discriminate |].
      conjuncts.
      - rewrite exec_handle. exact Href.
      - apply exec_without_handle, Href.
      - apply exec_frame. }
    destruct Hstep as (Href' & Hpin' & Hflag').
    cbn [play fold_left]. fold (play evs (dispatch ev s0)).
    destruct (IH Hrest (dispatch ev s0) Href') as (Hr & Hp & Hf).
    conjuncts; congruence. }
  destruct (Hgen init eq_refl) as (Hr & Hp & Hf).
  conjuncts; assumption.
Qed.

Lemma no_handle_before_opening_witness :
  let s := play [Command (DoubleClick (mkRect 0 0) (mkMouse 100 50 0 0));
                 ImageLoaded (mkSize 2000 1000);
                 Command ZoomIn;
                 Command (DoubleClick (mkRect 5 5) (mkMouse 10 20 0 0))]
             init in
  imageRef (containerData s) = None /\
  pin s = mkPoint 0 0 /\
  shouldDisplayModal s = false.
Proof.
  exact (no_handle_before_opening
           [Command (DoubleClick (mkRect 0 0) (mkMouse 100 50 0 0));
            ImageLoaded (mkSize 2000 1000);
            Command ZoomIn;
            Command (DoubleClick (mkRect 5 5) (mkMouse 10 20 0 0))]
           eq_refl).
Defined.

Lemma dispatch_keeps_handle (ev : Event) (s : state) :
  imageRef (containerData s) <> None ->
  imageRef (containerData (dispatch ev s)) <> None.
Proof.
  intros Href. destruct ev as [img | c i | o]; cbn [dispatch].
  - exact Href.
  - destruct (shouldDisplayModal s) eqn:Hshown.
    + rewrite (toggle_close c i s Hshown). exact Href.
    + rewrite (toggle_open c i s Hshown). discriminate.
  - rewrite exec_handle. exact Href.
Qed.

(** X14.  The image handle, once stored, is never cleared: after any
    events, closings included, there is still a handle, and a closing
    leaves the very handle that was there. *)
Theorem handle_never_cleared (evs : list Event) (c i : HTMLDivElement)
    (s : state) :
  imageRef (containerData s) <> None ->
  imageRef (containerData (play evs s)) <> None /\
  (shouldDisplayModal s = true ->
   imageRef (containerData (toggle c i s)) = imageRef (containerData s)).
Proof.
  intros Href. split.
  - revert s Href. induction evs as [| ev evs IH]; intros s Href;
      [exact Href |].
    cbn [play fold_left]. apply IH, dispatch_keeps_handle, Href.
  - intros Hshown. rewrite (toggle_close c i s Hshown). reflexivity.
Qed.

Lemma handle_never_cleared_witness :
  let s := opened (mkSize 2000 1000) (mkDiv 500 500) (mkDiv 2000 1000) in
  imageRef (containerData
              (play [Toggle (mkDiv 500 500) (mkDiv 2000 1000);
                     Command PointerDown] s)) <> None /\
  imageRef (containerData (toggle (mkDiv 500 500) (mkDiv 2000 1000) s)) =
    imageRef (containerData s).
Proof.
  intros s.
  assert (Href : imageRef (containerData s) <> None) by discriminate.
  destruct (handle_never_cleared
              [Toggle (mkDiv 500 500) (mkDiv 2000 1000); Command PointerDown]
              (mkDiv 500 500) (mkDiv 2000 1000) s Href) as [Hkept Hclose].
  exact (conj Hkept (Hclose eq_refl)).
Defined.

(** ** Opening before the image has loaded *)

Lemma play_commands (ops : list Op) :
  forall s, play (map Command ops) s = run ops s.
Proof.
  induction ops as [| o ops IH]; intros s; [reflexivity |].
  cbn [map play run fold_left]. apply IH.
Qed.

Lemma run_frame (ops : list Op) :
  forall s,
    imageData (run ops s) = imageData s /\
    containerData (run ops s) = containerData s /\
    range_of (run ops s) = range_of s /\
    base_of (run ops s) = base_of s.
Proof.
  induction ops as [| o ops IH]; intros s; [now conjuncts |].
  destruct (IH (exec o s)) as (Himg & Hcont & Hrange & Hbase).
  destruct (exec_frame o s) as (Himg' & Hcont' & Hrange' & Hbase' & _).
  cbn [run fold_left]. fold (run ops (exec o s)).
  conjuncts; congruence.
Qed.

Lemma run_range (ops : list Op) :
  forall s, range_invariant s -> range_invariant (run ops s).
Proof.
  induction ops as [| o ops IH]; intros s Hs; [exact Hs |].
  cbn [run fold_left]. apply IH, exec_range, Hs.
Qed.

Lemma default_fit (img : Size) (c i : HTMLDivElement) :
  0 < width img -> 0 < height img ->
  1 <= clientWidth c -> 1 <= clientHeight c ->
  let s1 := img_onload img (toggle c i init) in
  range_invariant s1 /\
  z_min (zoomData s1) = 1 /\
  base_of s1 = mkPoint ((1 - clientWidth c) / 2) ((1 - clientHeight c) / 2).
Proof.
  intros Hw Hh Hcw Hch.
  set (s0 := onLoadImage (Some i) (onToggleModal init)).
  rewrite (toggle_open c i init eq_refl). fold s0.
  set (t := onLoadContainer (Some c) s0).
  assert (Hw0 : width (imageData s0) <= clientWidth c) by exact Hcw.
  assert (Hh0 : height (imageData s0) <= clientHeight c) by exact Hch.
  pose proof (min_when_fits c s0 Hw0 Hh0) as Hmin1. fold t in Hmin1.
  destruct (onLoadContainer_effect c s0)
    as (_ & _ & _ & _ & Hmax1 & Hlvl1 & _ & Hbase1 & _).
  fold t in Hmax1, Hlvl1, Hbase1. rewrite Hmin1 in Hlvl1.
  intros s1. split; [| split; [exact Hmin1 | exact Hbase1]].
  constructor.
  - exact Hw.
  - exact Hh.
  - change (z_min (zoomData t) <= 1). rewrite Hmin1. lra.
  - exact Hmax1.
  - change (z_min (zoomData t) <= zoomLevel t <= z_max (zoomData t)).
    rewrite Hmin1, Hlvl1, Hmax1. lra.
Qed.

(** X15.  If the viewer is opened, in a container at least 1 x 1, before
    the image has loaded, the zoom range is computed from the default
    image 1 x 1: it is [1, 3] and the base offset is half of 1 minus the
    container's size.  The image load that follows records the image's
    size but recomputes neither, and no command does: the zoom level stays
    between 1 and 3, so an image wider than the container is never shown
    whole in that session. *)
Theorem opened_before_load (img : Size) (c i : HTMLDivElement)
    (ops : list Op) :
  0 < width img -> 0 < height img ->
  1 <= clientWidth c -> 1 <= clientHeight c ->
  let s := run ops (img_onload img (toggle c i init)) in
  (width (imageData s) = width img /\ height (imageData s) = height img) /\
  (z_min (zoomData s) = 1 /\ z_max (zoomData s) = 3) /\
  base_of s = mkPoint ((1 - clientWidth c) / 2) ((1 - clientHeight c) / 2) /\
  1 <= zoomLevel s <= 3 /\
  (clientWidth c < width img ->
   c_width (containerData s) < width (imageData s) * zoomLevel s).
Proof.
  intros Hw Hh Hcw Hch.
  destruct (default_fit img c i Hw Hh Hcw Hch) as (Hinv1 & Hmin1 & Hbase1).
  set (s1 := img_onload img (toggle c i init)) in *. intros s.
  destruct (run_frame ops s1) as (Himg & Hcont & Hrange & Hbase).
  destruct (run_range ops s1 Hinv1) as [_ _ _ Hmax [Hlo Hhi]].
  fold s in Himg, Hcont, Hrange, Hbase, Hmax, Hlo, Hhi.
  assert (Hmin : z_min (zoomData s) = 1).
  { rewrite <- Hmin1. exact (f_equal Spec.min Hrange). }
  rewrite Hmin in Hlo. rewrite Hmax in Hhi.
  assert (Hiw : width (imageData s1) = width img) by reflexivity.
  assert (Hih : height (imageData s1) = height img) by reflexivity.
  assert (Hcw1 : c_width (containerData s1) = clientWidth c).
  { unfold s1. rewrite (toggle_open c i init eq_refl). reflexivity. }
  split; [rewrite Himg; split; assumption |].
  split; [split; assumption |].
  split; [rewrite Hbase; exact Hbase1 |].
  split; [split; assumption |].
  intros Hwide. rewrite Himg, Hcont, Hcw1, Hiw.
  apply Qlt_le_trans with (width img * 1); [lra |].
  rewrite !(Qmult_comm (width img)).
  apply Qmult_le_compat_r; lra.
Qed.

Lemma opened_before_load_witness :
  let s := run [ZoomOut; ZoomOut]
             (img_onload (mkSize 2000 1000)
                (toggle (mkDiv 500 500) (mkDiv 1 1) init)) in
  z_min (zoomData s) = 1 /\
  c_width (containerData s) < width (imageData s) * zoomLevel s.
Proof.
  intros s.
  destruct (opened_before_load (mkSize 2000 1000) (mkDiv 500 500) (mkDiv 1 1)
              [ZoomOut; ZoomOut] eq_refl eq_refl)
    as (_ & [Hmin _] & _ & _ & Hwide); try discriminate.
  exact (conj Hmin (Hwide eq_refl)).
Defined.

(** ** The image covers the container or sits centred in it *)

Lemma axis_placement (L d cw z base pan : Q) :
  base == (d - cw) / 2 ->
  Qabs pan <= Spec.oversize d cw z / 2 ->
  let left := L + (- base - pan) + d / 2 + (0 - d / 2) * z in
  let right := L + (- base - pan) + d / 2 + (d - d / 2) * z in
  (cw <= d * z -> left <= L /\ L + cw <= right) /\
  (d * z <= cw ->
   L <= left /\ right <= L + cw /\ left - L == L + cw - right).
Proof.
  intros Hbase Hpan left right.
  apply Qabs_Qle_condition in Hpan. unfold Spec.oversize in Hpan.
  assert (Hl : left == L + cw / 2 - pan - d * z / 2).
  { unfold left. rewrite Hbase. field. }
  assert (Hr : right == L + cw / 2 - pan + d * z / 2).
  { unfold right. rewrite Hbase. field. }
  rewrite Hl, Hr. clear Hl Hr left right.
  generalize dependent (d * z). intros dz Hpan.
  split; intros Hcase.
  - rewrite Q.max_l in Hpan by lra. halves. split; lra.
  - rewrite Q.max_r in Hpan by lra. halves. conjuncts; lra.
Qed.

(** X16.  Over exact arithmetic, let the image box be laid out with its
    corner on the container's corner and be scaled about its own centre.
    In a session opened on a loaded image of positive size, after any
    commands, on each axis: if the scaled image is at least as large as the
    container, its two edges are on or outside the container's edges, so
    the container shows image everywhere; if it is at most as large, its
    two edges are on or inside the container's edges at equal distances, so
    the image is centred.  (With the source's doubles the zoom level, the
    oversize and the edges are rounded, and an edge can fall short of the
    container's by a rounding error.) *)
Theorem image_covers_or_centred (img : Size) (c i : HTMLDivElement)
    (ops : list Op) (layout : Point) :
  0 < width img -> 0 < height img ->
  let s := run ops (opened img c i) in
  let shown := Browser.toScreen layout (centre_of s) (image_transform s) in
  let near := shown (mkPoint 0 0) in
  let far := shown (far_corner s) in
  let z := zoomLevel s in
  ((clientWidth c <= width img * z ->
    px near <= px layout /\ px layout + clientWidth c <= px far) /\
   (width img * z <= clientWidth c ->
    px layout <= px near /\ px far <= px layout + clientWidth c /\
    px near - px layout == px layout + clientWidth c - px far)) /\
  ((clientHeight c <= height img * z ->
    py near <= py layout /\ py layout + clientHeight c <= py far) /\
   (height img * z <= clientHeight c ->
    py layout <= py near /\ py far <= py layout + clientHeight c /\
    py near - py layout == py layout + clientHeight c - py far)).
Proof.
  intros Hw Hh s shown near far z.
  destruct (run_invariant ops (opened img c i) (opened_invariant img c i Hw Hh))
    as (Hinv & Himg & Hcont & _ & Hbase).
  fold s in Hinv, Himg, Hcont, Hbase.
  destruct Hinv as [_ _ _ _ [Hpx Hpy]].
  assert (Himg0 : imageData (opened img c i) =
                  mkSize (width img) (height img)) by reflexivity.
  assert (Hcw : c_width (containerData (opened img c i)) = clientWidth c)
    by reflexivity.
  assert (Hch : c_height (containerData (opened img c i)) = clientHeight c)
    by reflexivity.
  assert (Hbase0 : base_of (opened img c i) =
                   mkPoint ((width img - clientWidth c) / 2)
                           ((height img - clientHeight c) / 2))
    by reflexivity.
  rewrite Himg0 in Himg. rewrite Hbase0 in Hbase.
  rewrite Himg, Hcont, Hcw in Hpx. rewrite Himg, Hcont, Hch in Hpy.
  cbn [width height] in Hpx, Hpy.
  assert (Hbx : baseX (offsetData s) == (width img - clientWidth c) / 2).
  { change (baseX (offsetData s)) with (px (base_of s)).
    rewrite Hbase. reflexivity. }
  assert (Hby : baseY (offsetData s) == (height img - clientHeight c) / 2).
  { change (baseY (offsetData s)) with (py (base_of s)).
    rewrite Hbase. reflexivity. }
  split.
  - pose proof (axis_placement (px layout) (width img) (clientWidth c) z
                  (baseX (offsetData s)) (px (dragOffset s)) Hbx Hpx) as H.
    unfold near, far, shown, far_corner, centre_of, Browser.toScreen.
    cbn [px]. rewrite Himg. cbn [width]. exact H.
  - pose proof (axis_placement (py layout) (height img) (clientHeight c) z
                  (baseY (offsetData s)) (py (dragOffset s)) Hby Hpy) as H.
    unfold near, far, shown, far_corner, centre_of, Browser.toScreen.
    cbn [py]. rewrite Himg. cbn [height]. exact H.
Qed.

Lemma image_covers_or_centred_witness :
  let s := run [ZoomIn; PointerDown; PointerMove (mkMouse 0 0 (-500) 30)]
             (opened (mkSize 2000 1000) (mkDiv 500 500) (mkDiv 2000 1000)) in
  let layout := mkPoint 30 40 in
  let shown := Browser.toScreen layout (centre_of s) (image_transform s) in
  (px (shown (mkPoint 0 0)) <= 30 /\ 30 + 500 <= px (shown (far_corner s))) /\
  (40 <= py (shown (mkPoint 0 0)) /\
   py (shown (far_corner s)) <= 40 + 500 /\
   py (shown (mkPoint 0 0)) - 40 == 40 + 500 - py (shown (far_corner s))).
Proof.
  intros s layout shown.
  destruct (image_covers_or_centred (mkSize 2000 1000) (mkDiv 500 500)
              (mkDiv 2000 1000)
              [ZoomIn; PointerDown; PointerMove (mkMouse 0 0 (-500) 30)]
              layout eq_refl eq_refl)
    as [[Hcover _] [_ Hcentre]].
  split.
  - apply Hcover. evaluate.
  - apply Hcentre. evaluate.
Defined.
